(** * A shallow embedding of the MTL modelling base and simulation kernel

    The development follows two source files:
    - [vgen/rtler_vbase.py]: [ValueNode], [VerilogSlice], [VerilogPort],
      [VerilogConstant] and [VerilogModule] (ports, connection, slices,
      elaboration);
    - [pymtl/simulate.py]: [SimulationTool] (event queue, combinational
      evaluation, the cycle and reset procedures).

    Python objects live in arenas and are referred to by their index; the
    values of Python integers are unbounded and are modelled by [Z].  The
    Python 2 types [int] and [long] are told apart where the source tests
    the type (the argument of [connect]). *)

From Stdlib Require Import ZArith Lia Ascii.
From stdpp Require Import gmap strings list pretty.

(** ** Part I: the object model of [rtler_vbase.py] *)

(** Exceptions a call can end with.  [NoObject] exists only in the model: it
    is the result of following an index that is outside its arena, which no
    Python reference can do.  [RuntimeError] is the interpreter's recursion
    limit, modelled by fuel.  [AttributeError] is the access to an attribute
    that the object does not have ([width] of a number). *)
Inductive exn :=
| AssertionError
| AttributeError
| TypeError
| ValueError
| RuntimeError
| NoObject.

Definition res (A : Type) : Type := (exn + A)%type.

Definition res_bind {A B : Type} (m : res A) (k : A → res B) : res B :=
  match m with
  | inl e => inl e
  | inr a => k a
  end.

Notation "'try' x ← m ; k" := (res_bind m (λ x, k))
  (at level 10, x name, m at level 100, k at level 200, only parsing).

(** [ValueNode]: [sim] is the simulator pointer ([None] is [false]). *)
Record ValueNode := mkValueNode {
  vn_sim : bool;
  vn_width : Z;
  vn_value : Z
}.

(** [VerilogSlice]: a view; [parent_ptr] is the index of the sliced port. *)
Record VerilogSlice := mkSlice {
  parent_ptr : nat;
  sl_width : Z;
  sl_addr : Z
}.

(** [VerilogConstant]: its value and width (its [type] is always
    ['constant'], its [name] is printed from the two). *)
Record VerilogConstant := mkConstant {
  c_value : Z;
  c_width : Z
}.

(** What the attribute [_value] of a port can hold besides [None]: a
    [ValueNode] or, after connecting to a slice, the slice object itself. *)
Inductive vref :=
| AtNode (n : nat)
| AtSlice (sl : VerilogSlice).

Inductive endpoint :=
| EPort (p : nat)
| ESlice (sl : VerilogSlice)
| EConstant (c : VerilogConstant).

(** The argument of [connect], by the [isinstance] tests of the source.
    The source is Python 2, which has two types of integer objects: an [int]
    is a machine word, its value lies in [-sys.maxint - 1 .. sys.maxint]; a
    [long] has any value.  [isinstance(target, int)] is true of an [int]
    only: a [long] is an object of none of the three tested types. *)
Inductive target :=
| TInt (v : Z)
| TLong (v : Z)
| TSlice (sl : VerilogSlice)
| TPort (p : nat).

(** The value [v] fits an [int] of a platform whose [sys.maxint] is
    [maxint]. *)
Definition fits_int (maxint v : Z) : bool :=
  ((- maxint - 1 <=? v) && (v <=? maxint))%Z.

(** The object that the integer [v] is, when it comes from a literal
    without suffix or from integer arithmetic: an [int] when it fits one, a
    [long] otherwise. *)
Definition py_integer (maxint v : Z) : target :=
  if fits_int maxint v then TInt v else TLong v.

Record VerilogPort := mkPort {
  p_type : option string;
  p_width : Z;
  p_name : string;
  p_parent : option string;
  p_connections : list endpoint;
  p_value : option vref
}.

(** What a call prints or reports: the two warnings of the source and the
    call [sim.add_event(node)] made by the setter of a node that has a
    simulator. *)
Inductive output :=
| WarnNoSimulator
| WarnUnconnected (parent : option string) (name : string)
| SimAddEvent (n : nat).

Record Heap := mkHeap {
  ports : list VerilogPort;
  nodes : list ValueNode;
  out : list output
}.

Definition empty_heap : Heap := mkHeap [] [] [].

Definition get_port (p : nat) (h : Heap) : res VerilogPort :=
  match ports h !! p with
  | Some P => inr P
  | None => inl NoObject
  end.

Definition get_node (n : nat) (h : Heap) : res ValueNode :=
  match nodes h !! n with
  | Some nd => inr nd
  | None => inl NoObject
  end.

Definition put_port (p : nat) (P : VerilogPort) (h : Heap) : Heap :=
  mkHeap (<[p := P]> (ports h)) (nodes h) (out h).

Definition print (o : output) (h : Heap) : Heap :=
  mkHeap (ports h) (nodes h) (out h ++ [o]).

(** [ValueNode(width, value, sim=None)]: the new node's index and the heap. *)
Definition new_ValueNode (width value : Z) (h : Heap) : nat * Heap :=
  (length (nodes h),
   mkHeap (ports h) (nodes h ++ [mkValueNode false width value]) (out h)).

(** [VerilogPort.__init__(type, width)] with the default name. *)
Definition new_VerilogPort (type : option string) (width : Z) (h : Heap)
  : nat * Heap :=
  (length (ports h),
   mkHeap (ports h ++ [mkPort type width "???" None [] None])
          (nodes h) (out h)).

Definition InPort (width : Z) (h : Heap) : nat * Heap :=
  new_VerilogPort (Some "input"%string) width h.

Definition OutPort (width : Z) (h : Heap) : nat * Heap :=
  new_VerilogPort (Some "output"%string) width h.

(** [self._value = r] on a port. *)
Definition set_port_ref (p : nat) (r : vref) (h : Heap) : res Heap :=
  try P ← get_port p h;
  inr (put_port p (mkPort (p_type P) (p_width P) (p_name P) (p_parent P)
                          (p_connections P) (Some r)) h).

(** [self.connections.append(e)] on a port. *)
Definition add_connection (p : nat) (e : endpoint) (h : Heap) : res Heap :=
  try P ← get_port p h;
  inr (put_port p (mkPort (p_type P) (p_width P) (p_name P) (p_parent P)
                          (p_connections P ++ [e]) (p_value P)) h).

(** The setter of [ValueNode.value]: notify the simulator, or warn, then
    store. *)
Definition set_node_value (n : nat) (value : Z) (h : Heap) : res Heap :=
  try nd ← get_node n h;
  let h1 := print (if vn_sim nd then SimAddEvent n else WarnNoSimulator) h in
  inr (mkHeap (ports h1)
              (<[n := mkValueNode (vn_sim nd) (vn_width nd) value]> (nodes h1))
              (out h1)).

(** [(parent_value & (1 << addr)) >> addr], with the exceptions of a negative
    shift count and of [None & int]. *)
Definition slice_bits (parent_value : option Z) (addr : Z) : res (option Z) :=
  if (addr <? 0)%Z then inl ValueError
  else match parent_value with
       | None => inl TypeError
       | Some x => inr (Some (Z.shiftr (Z.land x (Z.shiftl 1 addr)) addr))
       end.

(** [parent_value | (value << addr)], the right-hand side of the slice
    setter's [|=]. *)
Definition slice_or (parent_value : option Z) (value addr : Z) : res Z :=
  if (addr <? 0)%Z then inl ValueError
  else match parent_value with
       | None => inl TypeError
       | Some x => inr (Z.lor x (Z.shiftl value addr))
       end.

(** The getter of [VerilogPort.value].  The result [None] is Python's [None].
    A port whose [_value] is a slice reads through the slice's getter, which
    reads the sliced port in turn. *)
Fixpoint port_value (fuel : nat) (p : nat) (h : Heap) : res (option Z) :=
  match fuel with
  | O => inl RuntimeError
  | S fuel' =>
    try P ← get_port p h;
    match p_value P with
    | None => inr None
    | Some (AtNode n) =>
        try nd ← get_node n h;
        inr (Some (vn_value nd))
    | Some (AtSlice sl) =>
        try pv ← port_value fuel' (parent_ptr sl) h;
        slice_bits pv (sl_addr sl)
    end
  end.

(** The getter of [VerilogSlice.value]. *)
Definition slice_value (fuel : nat) (sl : VerilogSlice) (h : Heap)
  : res (option Z) :=
  try pv ← port_value fuel (parent_ptr sl) h;
  slice_bits pv (sl_addr sl).

(** The setter of [VerilogPort.value]. *)
Fixpoint set_port_value (fuel : nat) (p : nat) (value : Z) (h : Heap)
  : res Heap :=
  match fuel with
  | O => inl RuntimeError
  | S fuel' =>
    try P ← get_port p h;
    match p_value P with
    | None =>
        let h1 := print (WarnUnconnected (p_parent P) (p_name P)) h in
        let '(n, h2) := new_ValueNode (p_width P) value h1 in
        set_port_ref p (AtNode n) h2
    | Some (AtNode n) => set_node_value n value h
    | Some (AtSlice sl) =>
        try pv ← port_value fuel' (parent_ptr sl) h;
        try v ← slice_or pv value (sl_addr sl);
        set_port_value fuel' (parent_ptr sl) v h
    end
  end.

(** The setter of [VerilogSlice.value]:
    [self.parent_ptr.value |= (value << self.addr)]. *)
Definition set_slice_value (fuel : nat) (sl : VerilogSlice) (value : Z)
  (h : Heap) : res Heap :=
  try pv ← port_value fuel (parent_ptr sl) h;
  try v ← slice_or pv value (sl_addr sl);
  set_port_value fuel (parent_ptr sl) v h.

(** [VerilogPort.__getitem__]: a one-bit slice. *)
Definition getitem (p : nat) (addr : Z) : VerilogSlice := mkSlice p 1 addr.

(** [VerilogPort.connect].  A [long] is not an [int] and not a
    [VerilogSlice]: it takes the last branch, whose first statement,
    [assert self.width == target.width], reads an attribute that a number
    does not have. *)
Definition connect (self : nat) (tgt : target) (h : Heap) : res Heap :=
  try Self ← get_port self h;
  match tgt with
  | TInt v =>
      try h1 ← add_connection self
                 (EConstant (mkConstant v (p_width Self))) h;
      let '(n, h2) := new_ValueNode (p_width Self) v h1 in
      set_port_ref self (AtNode n) h2
  | TLong _ => inl AttributeError
  | TSlice sl =>
      if decide (p_width Self = sl_width sl) then
        try h1 ← add_connection self (ESlice sl) h;
        try h2 ← add_connection (parent_ptr sl) (EPort self) h1;
        try Tgt ← get_port (parent_ptr sl) h2;
        match p_value Tgt with
        | Some _ => set_port_ref self (AtSlice sl) h2
        | None =>
            try h3 ← set_port_ref self (AtSlice sl) h2;
            try Tgt' ← get_port (parent_ptr sl) h3;
            let '(n, h4) := new_ValueNode (p_width Tgt') 0 h3 in
            set_port_ref (parent_ptr sl) (AtNode n) h4
        end
      else inl AssertionError
  | TPort t =>
      try Tgt ← get_port t h;
      if decide (p_width Self = p_width Tgt) then
        try h1 ← add_connection self (EPort t) h;
        try h2 ← add_connection t (EPort self) h1;
        try Tgt2 ← get_port t h2;
        match p_value Tgt2 with
        | Some r => set_port_ref self r h2
        | None =>
            try Self2 ← get_port self h2;
            let '(n, h3) := new_ValueNode (p_width Self2) 0 h2 in
            try h4 ← set_port_ref self (AtNode n) h3;
            set_port_ref t (AtNode n) h4
        end
      else inl AssertionError
  end.

(** A three-port scenario: [a.connect(b); a.connect(c); a.value = 5]. *)
Definition three_ports : res (nat * nat * nat * Heap) :=
  let '(a, h) := InPort 8 empty_heap in
  let '(b, h) := InPort 8 h in
  let '(c, h) := InPort 8 h in
  try h ← connect a (TPort b) h;
  try h ← connect a (TPort c) h;
  try h ← set_port_value 10 a 5 h;
  inr (a, b, c, h).


(** A one-bit slice written with 0 over a set bit:
    [p.connect(1); p[0].value = 0; p[0].value]. *)
Definition clear_bit : res (option Z) :=
  let '(p, h) := InPort 8 empty_heap in
  try h ← connect p (TInt 1) h;
  try h ← set_slice_value 10 (getitem p 0) 0 h;
  slice_value 10 (getitem p 0) h.

(** ** Part II: elaboration ([VerilogModule.elaborate], [check_type])

    A module is the tree of its attributes.  [dict] lists the attributes the
    model's constructor declared, in the iteration order of [__dict__]; the
    attributes that elaboration itself creates are the other fields ([None]
    or empty before elaboration).  In Python these live in the same
    [__dict__]; when the loop of [elaborate] meets them they are strings,
    [None] or the freshly emptied [wires] list, for which [check_type] does
    nothing, or they are skipped by the guard on the names [ports] and
    [submodules].  A back-reference to a parent module is kept as the parent's
    instance name. *)

Record VerilogWire := mkWire {
  w_name : string;
  w_width : Z
}.

#[local] Unset Elimination Schemes.

Inductive obj :=
| OPort (p : VerilogPort)
| OModule (m : VerilogModule)
| OList (l : objs)
| OOther
with objs :=
| ONil
| OCons (o : obj) (l : objs)
with members :=
| MNil
| MCons (name : string) (o : obj) (d : members)
with VerilogModule :=
| Module (class : string) (type : option string)
    (class_name : option string) (parent : option string)
    (name : option string) (wires : list VerilogWire)
    (mports : list VerilogPort) (submodules : list VerilogModule)
    (dict : members).

#[local] Set Elimination Schemes.

(** The mutual induction principle of the hierarchy (the lists of ports and
    submodules that elaboration builds carry no induction hypothesis:
    [elaborate] overwrites them without reading them). *)
#[warnings="-register-all"]
Scheme obj_mut := Induction for obj Sort Prop
  with objs_mut := Induction for objs Sort Prop
  with members_mut := Induction for members Sort Prop
  with VerilogModule_mut := Induction for VerilogModule Sort Prop.

Combined Scheme hierarchy_ind
  from obj_mut, objs_mut, members_mut, VerilogModule_mut.

Definition m_class (m : VerilogModule) : string :=
  match m with Module c _ _ _ _ _ _ _ _ => c end.
Definition m_type (m : VerilogModule) : option string :=
  match m with Module _ t _ _ _ _ _ _ _ => t end.
Definition m_name (m : VerilogModule) : option string :=
  match m with Module _ _ _ _ n _ _ _ _ => n end.
Definition m_parent (m : VerilogModule) : option string :=
  match m with Module _ _ _ p _ _ _ _ _ => p end.
Definition m_ports (m : VerilogModule) : list VerilogPort :=
  match m with Module _ _ _ _ _ _ ps _ _ => ps end.
Definition m_submodules (m : VerilogModule) : list VerilogModule :=
  match m with Module _ _ _ _ _ _ _ ms _ => ms end.
Definition m_dict (m : VerilogModule) : members :=
  match m with Module _ _ _ _ _ _ _ _ d => d end.

(** [obj.name = name; obj.parent = target] on a port. *)
Definition name_port (tname name : string) (p : VerilogPort) : VerilogPort :=
  mkPort (p_type p) (p_width p) name (Some tname) (p_connections p)
         (p_value p).

(** [obj.type = obj.__class__.__name__] and [obj.parent = target] on a
    submodule.  [elaborate] neither reads nor writes [type], so the model
    sets it together with [parent], after the recursive call. *)
Definition adopt (tname : string) (m : VerilogModule) : VerilogModule :=
  match m with
  | Module c _ cn _ n w ps ms d => Module c (Some c) cn (Some tname) n w ps ms d
  end.

(** ["%s_%d" % (name, i)] *)
Definition item_name (name : string) (i : nat) : string :=
  name +:+ "_" +:+ pretty i.

(** The guard of the loop in [elaborate]. *)
Definition classified (name : string) : bool :=
  negb (String.eqb name "ports") && negb (String.eqb name "submodules").

(** [elaborate] and [check_type].  [check_type] returns the object as it
    leaves it together with the ports and submodules it appends to the
    target's lists; [tname] is the name of the target. *)
Fixpoint elaborate (iname : string) (target : VerilogModule) {struct target}
  : VerilogModule :=
  match target with
  | Module c t _ _ _ _ _ _ d =>
      let '(d', ps, ms) := elaborate_dict iname d in
      Module c t (Some c) None (Some iname) [] ps ms d'
  end
with check_type (tname name : string) (o : obj) {struct o}
  : obj * list VerilogPort * list VerilogModule :=
  match o with
  | OPort p =>
      let p' := name_port tname name p in
      (OPort p', [p'], [])
  | OModule m =>
      let m' := adopt tname (elaborate name m) in
      (OModule m', [], [m'])
  | OList l =>
      let '(l', ps, ms) := check_items tname name 0 l in
      (OList l', ps, ms)
  | OOther => (OOther, [], [])
  end
with check_items (tname name : string) (i : nat) (l : objs) {struct l}
  : objs * list VerilogPort * list VerilogModule :=
  match l with
  | ONil => (ONil, [], [])
  | OCons item l' =>
      let '(item', ps, ms) := check_type tname (item_name name i) item in
      let '(l'', ps', ms') := check_items tname name (S i) l' in
      (OCons item' l'', ps ++ ps', ms ++ ms')
  end
with elaborate_dict (tname : string) (d : members) {struct d}
  : members * list VerilogPort * list VerilogModule :=
  match d with
  | MNil => (MNil, [], [])
  | MCons name o d' =>
      let '(o', ps, ms) :=
        if classified name then check_type tname name o else (o, [], []) in
      let '(d'', ps', ms') := elaborate_dict tname d' in
      (MCons name o' d'', ps ++ ps', ms ++ ms')
  end.




(** ** Part III: the simulator ([SimulationTool] of [simulate.py])

    Nodes and functions are known by their identity (a number).  A node is a
    [ValueNode]: the simulator is told of a write by the node's setter, which
    calls [add_event] before it stores the value.

    What a registered function does when it is called is a program over the
    operations a model has on the simulator's state: reading a node, writing
    a node through its setter, and staging a register. *)

Inductive prog :=
| Return
| ReadValue (n : nat) (k : Z → prog)
| WriteValue (n : nat) (value : Z) (k : prog)
| WriteNext (r : nat) (value : Z) (k : prog).

(** The trace is ghost state: it records what the simulator does, with the
    nodes as they are at that moment, and is read by no operation. *)
Inductive label :=
| LSettle                     (* [eval_combinational] is entered *)
| LComb (f : nat)             (* [func()] in [eval_combinational] *)
| LSet (n : nat) (value : Z)  (* a write made by [cycle] or [reset] itself *)
| LPosedge (f : nat)          (* [func()] in the loop over [posedge_clk_fns] *)
| LStage (r : nat)            (* a register is staged *)
| LCommit (r : nat).          (* [reg.clock()] *)

Record event := mkEvent {
  ev_label : label;
  ev_nodes : gmap nat ValueNode
}.

Record SimulationTool := mkSim {
  sim_nodes : gmap nat ValueNode;
  sim_next : gmap nat Z;
  num_cycles : Z;
  vnode_callbacks : gmap nat (list nat);
  rnode_callbacks : list nat;
  event_queue : list nat;
  posedge_clk_fns : list nat;
  trace : list event
}.

Definition set_nodes (m : gmap nat ValueNode) (s : SimulationTool) :=
  mkSim m (sim_next s) (num_cycles s) (vnode_callbacks s) (rnode_callbacks s)
        (event_queue s) (posedge_clk_fns s) (trace s).

Definition set_next (m : gmap nat Z) (s : SimulationTool) :=
  mkSim (sim_nodes s) m (num_cycles s) (vnode_callbacks s) (rnode_callbacks s)
        (event_queue s) (posedge_clk_fns s) (trace s).

Definition set_num_cycles (c : Z) (s : SimulationTool) :=
  mkSim (sim_nodes s) (sim_next s) c (vnode_callbacks s) (rnode_callbacks s)
        (event_queue s) (posedge_clk_fns s) (trace s).

Definition set_vnode_callbacks (m : gmap nat (list nat)) (s : SimulationTool) :=
  mkSim (sim_nodes s) (sim_next s) (num_cycles s) m (rnode_callbacks s)
        (event_queue s) (posedge_clk_fns s) (trace s).

Definition set_rnode_callbacks (l : list nat) (s : SimulationTool) :=
  mkSim (sim_nodes s) (sim_next s) (num_cycles s) (vnode_callbacks s) l
        (event_queue s) (posedge_clk_fns s) (trace s).

Definition set_event_queue (q : list nat) (s : SimulationTool) :=
  mkSim (sim_nodes s) (sim_next s) (num_cycles s) (vnode_callbacks s)
        (rnode_callbacks s) q (posedge_clk_fns s) (trace s).

Definition set_posedge_clk_fns (l : list nat) (s : SimulationTool) :=
  mkSim (sim_nodes s) (sim_next s) (num_cycles s) (vnode_callbacks s)
        (rnode_callbacks s) (event_queue s) l (trace s).

Definition log (l : label) (s : SimulationTool) :=
  mkSim (sim_nodes s) (sim_next s) (num_cycles s) (vnode_callbacks s)
        (rnode_callbacks s) (event_queue s) (posedge_clk_fns s)
        (trace s ++ [mkEvent l (sim_nodes s)]).

(** The value of a node in a map of nodes (0 for an index that has no node:
    a [ValueNode] is created with value 0). *)
Definition value_in (m : gmap nat ValueNode) (n : nat) : Z :=
  match m !! n with
  | Some nd => vn_value nd
  | None => 0%Z
  end.

Definition node_value (s : SimulationTool) (n : nat) : Z :=
  value_in (sim_nodes s) n.

(** [deque.appendleft] is [cons]: the head of the list is the left end. *)
Definition appendleft (f : nat) (q : list nat) : list nat := f :: q.

(** [deque.pop()] and [list.pop()]: remove and return the rightmost (last)
    element. *)
Definition pop {A : Type} (l : list A) : option (list A * A) :=
  match reverse l with
  | [] => None
  | x :: r => Some (reverse r, x)
  end.

(** The loop of [add_event] over [funcs]. *)
Definition add_funcs (funcs : list nat) (q : list nat) : list nat :=
  foldl (λ q func, if decide (func ∈ q) then q else appendleft func q) q funcs.

(** [SimulationTool.add_event]. *)
Definition add_event (value_node : nat) (s : SimulationTool) : SimulationTool :=
  match vnode_callbacks s !! value_node with
  | Some funcs => set_event_queue (add_funcs funcs (event_queue s)) s
  | None => s
  end.

(** The setter of [ValueNode.value], seen from the simulator: [add_event] if
    the node has its simulator pointer (a warning is printed otherwise), then
    the store.  An index without a node is left alone. *)
Definition set_value (n : nat) (value : Z) (s : SimulationTool)
  : SimulationTool :=
  match sim_nodes s !! n with
  | Some nd =>
      let s1 := if vn_sim nd then add_event n s else s in
      set_nodes (<[n := mkValueNode (vn_sim nd) (vn_width nd) value]>
                   (sim_nodes s1)) s1
  | None => s
  end.

(** Modelled from the spec: the register interface of the model classes
    ([model.py] is not under src/).  Staging a register stores its next value
    and appends it to [rnode_callbacks]; [clock] (the commit) applies the
    staged value to the register's node. *)
Definition stage (r : nat) (value : Z) (s : SimulationTool) : SimulationTool :=
  let s1 := log (LStage r) s in
  set_rnode_callbacks (rnode_callbacks s1 ++ [r])
    (set_next (<[r := value]> (sim_next s1)) s1).

Definition clock (r : nat) (s : SimulationTool) : SimulationTool :=
  set_value r (default 0%Z (sim_next s !! r)) (log (LCommit r) s).

(** Running the body of a function. *)
Fixpoint run (p : prog) (s : SimulationTool) : SimulationTool :=
  match p with
  | Return => s
  | ReadValue n k => run (k (node_value s n)) s
  | WriteValue n value k => run k (set_value n value s)
  | WriteNext r value k => run k (stage r value s)
  end.

(** The loop of [register_decorated_functions] over one sensitivity list:
    the function is added to the callbacks of every signal's node, and primed
    at each step unless it is pending. *)
Definition register_comb (func : nat) (sensitivity_list : list nat)
  (s : SimulationTool) : SimulationTool :=
  foldl (λ s value_ptr,
           let s1 := set_vnode_callbacks
                       (<[value_ptr :=
                            default [] (vnode_callbacks s !! value_ptr)
                            ++ [func]]> (vnode_callbacks s)) s in
           if decide (func ∈ event_queue s1) then s1
           else set_event_queue (appendleft func (event_queue s1)) s1)
        s sensitivity_list.

(** [SimulationTool.__init__] for a model without submodules:
    [find_node_groupings] gives every node of the model its simulator
    pointer, [register_decorated_functions] walks the table [_newsenses] and
    the detected [posedge_clk] functions. *)
Definition construct_sim (nodes : gmap nat ValueNode)
  (newsenses : list (nat * list nat)) (posedge_funcs : list nat)
  : SimulationTool :=
  let s0 := mkSim ((λ nd, mkValueNode true (vn_width nd) (vn_value nd))
                     <$> nodes) ∅ 0 ∅ [] [] [] [] in
  let s1 := foldl (λ s e, register_comb e.1 e.2 s) s0 newsenses in
  foldl (λ s f, set_posedge_clk_fns (posedge_clk_fns s ++ [f]) s)
        s1 posedge_funcs.

Section Simulation.

(** The function objects, by identity, and the nodes of [model.clk] and
    [model.reset]. *)
Variable body : nat → prog.
Variables clk reset_node : nat.

Definition call (kind : nat → label) (func : nat) (s : SimulationTool)
  : SimulationTool :=
  run (body func) (log (kind func) s).

(** The loop of [eval_combinational]; [fuel] bounds the number of calls. *)
Fixpoint drain (fuel : nat) (s : SimulationTool) {struct fuel}
  : option SimulationTool :=
  match pop (event_queue s) with
  | None => Some s
  | Some (q, func) =>
      match fuel with
      | O => None
      | S fuel' => drain fuel' (call LComb func (set_event_queue q s))
      end
  end.

(** [SimulationTool.eval_combinational]. *)
Definition eval_combinational (fuel : nat) (s : SimulationTool)
  : option SimulationTool :=
  drain fuel (log LSettle s).

(** The loop [while self.rnode_callbacks: reg = pop(); reg.clock()]; [clock]
    adds no register, so the length of the list bounds the iterations. *)
Fixpoint commit_loop (n : nat) (s : SimulationTool) : SimulationTool :=
  match n with
  | O => s
  | S n' =>
      match pop (rnode_callbacks s) with
      | None => s
      | Some (rest, reg) => commit_loop n' (clock reg (set_rnode_callbacks rest s))
      end
  end.

Definition commit_registers (s : SimulationTool) : SimulationTool :=
  commit_loop (length (rnode_callbacks s)) s.

(** A write that [cycle] or [reset] makes to a port of the model ([clk],
    [reset]), whose node is [n]. *)
Definition kernel_write (n : nat) (value : Z) (s : SimulationTool)
  : SimulationTool :=
  set_value n value (log (LSet n value) s).

(** [SimulationTool.cycle] (without the VCD time stamps, which are only
    printed). *)
Definition cycle (fuel : nat) (s : SimulationTool) : option SimulationTool :=
  s1 ← eval_combinational fuel s;
  let s2 := kernel_write clk 0 s1 in
  let s3 := kernel_write clk 1 s2 in
  let s4 := foldl (λ s func, call LPosedge func s) s3 (posedge_clk_fns s3) in
  let s5 := commit_registers s4 in
  s6 ← eval_combinational fuel s5;
  Some (set_num_cycles (num_cycles s6 + 1) s6).

(** [SimulationTool.reset]. *)
Definition reset (fuel : nat) (s : SimulationTool) : option SimulationTool :=
  let s1 := kernel_write reset_node 1 s in
  s2 ← cycle fuel s1;
  s3 ← cycle fuel s2;
  Some (kernel_write reset_node 0 s3).

End Simulation.

(** A small model: node 0 is [clk], node 1 is [reset], node 2 an input, node
    3 an output, node 4 a register.  Function 0 is combinational, sensitive
    to nodes 2 and 4, and copies [clk] to node 3; function 1 is combinational,
    sensitive to node 2, and does nothing; function 2 is edge triggered and
    stages node 2's value into the register. *)
Definition ex_body (f : nat) : prog :=
  match f with
  | 0 => ReadValue 0 (λ c, WriteValue 3 c Return)
  | 2 => ReadValue 2 (λ x, WriteNext 4 x Return)
  | _ => Return
  end.

Definition ex_nodes : gmap nat ValueNode :=
  list_to_map [(0, mkValueNode false 1 0); (1, mkValueNode false 1 0);
               (2, mkValueNode false 8 0); (3, mkValueNode false 1 0);
               (4, mkValueNode false 8 0)].

Definition ex_sim : SimulationTool :=
  construct_sim ex_nodes [(0, [2; 4]); (1, [2])] [2].

Definition labels (tr : list event) : list label := ev_label <$> tr.


(** The example after its first cycle, and then with its input written. *)
Definition ex_after_cycle : SimulationTool :=
  default ex_sim (cycle ex_body 0 10 ex_sim).

Definition ex_input_written : SimulationTool := set_value 2 7 ex_after_cycle.


Definition ex_settled : SimulationTool :=
  default ex_sim (eval_combinational ex_body 10 ex_input_written).

Definition ex_scheduled_twice : SimulationTool :=
  default ex_sim
    (eval_combinational ex_body 10 (add_event 2 (add_event 2 ex_after_cycle))).

Definition ex_after_reset : SimulationTool :=
  default ex_sim (reset ex_body 0 1 10 ex_sim).

(** The small model with one more combinational function, 3, which is
    sensitive to [reset] (node 1) and does nothing. *)
Definition ex_listening : SimulationTool :=
  construct_sim ex_nodes [(0, [2; 4]); (1, [2]); (3, [1])] [2].

Definition ex_listening_after_reset : SimulationTool :=
  default ex_listening (reset ex_body 0 1 10 ex_listening).

(** Reading the trace. *)
Definition stages (tr : list label) : list nat :=
  omap (λ l, match l with LStage r => Some r | _ => None end) tr.

Definition comb_calls (tr : list label) : list nat :=
  omap (λ l, match l with LComb f => Some f | _ => None end) tr.

Definition posedge_calls (tr : list label) : list nat :=
  omap (λ l, match l with LPosedge f => Some f | _ => None end) tr.

Definition is_stage (l : label) : bool :=
  match l with LStage _ => true | _ => false end.

Definition is_comb (l : label) : bool :=
  match l with LComb _ => true | _ => false end.

Definition is_posedge (l : label) : bool :=
  match l with LPosedge _ => true | _ => false end.

#[global] Instance label_eq_dec : EqDecision label.
Proof. solve_decision. Defined.

(** How often [x] occurs in [l]. *)
Definition count {A : Type} `{EqDecision A} (x : A) (l : list A) : nat :=
  length (filter (x =.) l).

(** The labels of one call of [cycle] that starts with the registers [rn]
    pending and the edge functions [fns] registered: a settle, the two clock
    writes, the edge functions in the order of [fns] (each followed by what it
    stages), the commits in reverse order of staging, a settle. *)
Definition cycle_trace (clk : nat) (fns rn : list nat) (T : list label) : Prop :=
  ∃ T1 T2 T3,
    T = LSettle :: T1 ++ [LSet clk 0; LSet clk 1] ++ T2
        ++ (LCommit <$> reverse (rn ++ stages T1 ++ stages T2))
        ++ LSettle :: T3 ∧
    Forall (λ l, is_comb l || is_stage l) T1 ∧
    Forall (λ l, is_posedge l || is_stage l) T2 ∧
    posedge_calls T2 = fns ∧
    Forall (λ l, is_comb l || is_stage l) T3.

(** A body that writes only nodes in [W] and stages only registers in [R]. *)
Fixpoint respects (W R : nat → Prop) (p : prog) : Prop :=
  match p with
  | Return => True
  | ReadValue _ k => ∀ z, respects W R (k z)
  | WriteValue n _ k => W n ∧ respects W R k
  | WriteNext r _ k => R r ∧ respects W R k
  end.

(** The part of the state that only [SimulationTool.__init__] writes, and
    the growth of the trace and of the list of staged registers. *)
Definition advance (tr : list label) (s s' : SimulationTool) : Prop :=
  labels (trace s') = labels (trace s) ++ tr ∧
  rnode_callbacks s' = rnode_callbacks s ++ stages tr ∧
  posedge_clk_fns s' = posedge_clk_fns s ∧
  num_cycles s' = num_cycles s ∧
  vnode_callbacks s' = vnode_callbacks s.

(** An event at which the reset node reads 1, and the invariant of the two
    cycles of [reset]: the node reads 1, is not a pending register, and every
    event recorded after the prefix [pre] saw it at 1. *)
Definition reset_high (reset_node : nat) (e : event) : Prop :=
  value_in (ev_nodes e) reset_node = 1%Z.

Definition asserted (reset_node : nat) (pre : list event) (s : SimulationTool)
  : Prop :=
  node_value s reset_node = 1%Z ∧
  (reset_node ∉ rnode_callbacks s) ∧
  (∃ mid, trace s = pre ++ mid ∧ Forall (reset_high reset_node) mid).

(** ** Part III-b: more of [rtler_vbase.py] and [simulate.py], and the other
    source files *)

(** The width [connect] compares the port's width with: [target.width], of a
    slice or of a port (an integer target is not compared). *)
Definition target_width (tgt : target) (h : Heap) : option Z :=
  match tgt with
  | TInt _ | TLong _ => None
  | TSlice sl => Some (sl_width sl)
  | TPort t => p_width <$> ports h !! t
  end.

(** The port a target of [connect] belongs to. *)
Definition target_port (tgt : target) : option nat :=
  match tgt with
  | TInt _ | TLong _ => None
  | TSlice sl => Some (parent_ptr sl)
  | TPort t => Some t
  end.

(** Two ports of width 8 and 4. *)
Definition ex_two_widths : Heap := (InPort 4 (InPort 8 empty_heap).2).2.

(** Two ports of width 8; and the same with the first holding the constant
    5. *)
Definition ex_pair : Heap := (InPort 8 (InPort 8 empty_heap).2).2.

Definition ex_const5 : Heap :=
  match connect 0 (TInt 5) ex_pair with
  | inr h => h
  | inl _ => ex_pair
  end.

(** Two one-bit ports, each connected to bit 0 of the other:
    [a.connect(b[0]); b.connect(a[0])]. *)
Definition ex_slice_loop : Heap :=
  let h := (InPort 1 (InPort 1 empty_heap).2).2 in
  match connect 0 (TSlice (getitem 1 0)) h with
  | inr h1 =>
      match connect 1 (TSlice (getitem 0 0)) h1 with
      | inr h2 => h2
      | inl _ => h
      end
  | inl _ => h
  end.

(** A one-bit port (0) and a port of width 8 (1) that holds the constant 5. *)
Definition ex_bit_and_byte : Heap :=
  let h := (InPort 8 (InPort 1 empty_heap).2).2 in
  match connect 1 (TInt 5) h with
  | inr h1 => h1
  | inl _ => h
  end.

Definition ex_pair_connected : Heap :=
  match connect 0 (TPort 1) ex_pair with
  | inr h => h
  | inl _ => ex_pair
  end.

(** What [connect] leaves alone.  Two port records agree on what elaboration
    and construction set; a heap [h'] extends [h] when nothing was printed,
    the nodes of [h] are a prefix of those of [h'] (none was written, none
    removed), and every port of [h] is still there with the same type, width,
    name and parent, with its connections extended, and unchanged unless it
    is in [touched]. *)
Definition same_static (P Q : VerilogPort) : Prop :=
  p_type P = p_type Q ∧ p_width P = p_width Q ∧
  p_name P = p_name Q ∧ p_parent P = p_parent Q.

Definition heap_frame (touched : list nat) (h h' : Heap) : Prop :=
  out h' = out h ∧
  nodes h `prefix_of` nodes h' ∧
  length (ports h') = length (ports h) ∧
  ∀ q Q, ports h !! q = Some Q →
         ∃ Q', ports h' !! q = Some Q' ∧ same_static Q Q' ∧
               p_connections Q `prefix_of` p_connections Q' ∧
               (q ∉ touched → Q' = Q).

(** A Python list whose items are ports, as an attribute value. *)
Definition objs_of_ports (ps : list VerilogPort) : objs :=
  foldr (λ p l, OCons (OPort p) l) ONil ps.

(** Function [g] is in the callback list of node [n]. *)
Definition registered (s : SimulationTool) (n g : nat) : Prop :=
  ∃ funcs, vnode_callbacks s !! n = Some funcs ∧ g ∈ funcs.

(** The simulator after the input writes [ws] (node, value) of a test
    bench. *)
Definition write_inputs (ws : list (nat * Z)) (s : SimulationTool)
  : SimulationTool :=
  foldl (λ s w, set_value w.1 w.2 s) s ws.

(** A function that writes a node it is registered for: node 0 has its
    simulator pointer, function 0 is sensitive to node 0 and writes it. *)
Definition ex_feedback_body (f : nat) : prog :=
  match f with
  | 0 => ReadValue 0 (λ x, Return)
  | _ => WriteValue 0 1 Return
  end.

Definition ex_feedback : SimulationTool :=
  construct_sim {[0 := mkValueNode false 1 0]} [(1, [0])] [].




(** ** Part III-c: the memory image of [pclib/test/SparseMemoryImage.py]

    [sparse_memory_img] is a list of entries [[label_addr, [bytes]]]. *)

Inductive image_error :=
| ImgIndexError
| ImgValueError.

(** Indexing a Python list: a negative index counts from the end, and an
    index outside the list raises [IndexError]. *)
Definition py_getitem {A : Type} (l : list A) (i : Z) : image_error + A :=
  let n := Z.of_nat (length l) in
  let j := if (i <? 0)%Z then (i + n)%Z else i in
  if (j <? 0)%Z || (n <=? j)%Z then inl ImgIndexError
  else match l !! Z.to_nat j with
       | Some x => inr x
       | None => inl ImgIndexError
       end.

(** [SparseMemoryImage(labels_list=...)]: the empty image extended by the
    list. *)
Definition image_of_labels (labels_list : list (Z * list Z))
  : list (Z * list Z) :=
  [] ++ labels_list.

Definition load_label (label_list : Z * list Z) (s : list (Z * list Z))
  : list (Z * list Z) :=
  s ++ [label_list].

Definition read_label (label_addr : Z) (s : list (Z * list Z))
  : image_error + (Z * list Z) :=
  py_getitem s label_addr.

Definition num_labels (s : list (Z * list Z)) : Z := Z.of_nat (length s).

(** The characters [str.split()] and [str.strip()] treat as white space. *)
Definition is_space (c : Ascii.ascii) : bool :=
  Ascii.eqb c " "%char || Ascii.eqb c "009"%char || Ascii.eqb c "010"%char
  || Ascii.eqb c "011"%char || Ascii.eqb c "012"%char
  || Ascii.eqb c "013"%char.

(** [str.split()]: the maximal runs of characters that are not white
    space. *)
Fixpoint split_from (s cur : string) : list string :=
  match s with
  | EmptyString => if decide (cur = EmptyString) then [] else [cur]
  | String c s' =>
      if is_space c then
        if decide (cur = EmptyString) then split_from s' EmptyString
        else cur :: split_from s' EmptyString
      else split_from s' (cur +:+ String c EmptyString)
  end.

Definition split (s : string) : list string := split_from s EmptyString.

(** The truth value of [line.strip()]: some character is not white space. *)
Fixpoint nonblank (s : string) : bool :=
  match s with
  | EmptyString => false
  | String c s' => negb (is_space c) || nonblank s'
  end.

(** [current_list.append(value)]: [current_list] is the list inside the
    entry appended last. *)
Definition append_to_current (value : Z) (img : list (Z * list Z))
  : list (Z * list Z) :=
  alter (λ e, (e.1, e.2 ++ [value])) (pred (length img)) img.

Section VmhLoader.

(** Python's [int(hex_str, 16)]; [None] stands for its [ValueError]. *)
Variable int16 : string → option Z.

(** One iteration of the loop over the lines of the file, on the image and
    the variable [addr]. *)
Definition vmh_line (st : list (Z * list Z) * option Z) (line : string)
  : image_error + (list (Z * list Z) * option Z) :=
  match line with
  | EmptyString => inl ImgIndexError
  | String c rest =>
      if Ascii.eqb c "@"%char then
        match split rest with
        | [hex_str; slash; label] =>
            match int16 hex_str with
            | Some addr => inr (st.1 ++ [(addr, [])], Some addr)
            | None => inl ImgValueError
            end
        | _ => inl ImgValueError
        end
      else
        match st.2 with
        | Some addr =>
            if negb (addr =? 0)%Z && nonblank line then
              match split line with
              | hex_str :: _ =>
                  match int16 hex_str with
                  | Some value => inr (append_to_current value st.1, st.2)
                  | None => inl ImgValueError
                  end
              | [] => inl ImgIndexError
              end
            else inr st
        | None => inr st
        end
  end.

Fixpoint vmh_lines (lines : list string)
  (st : list (Z * list Z) * option Z)
  : image_error + (list (Z * list Z) * option Z) :=
  match lines with
  | [] => inr st
  | line :: lines' =>
      match vmh_line st line with
      | inr st' => vmh_lines lines' st'
      | inl e => inl e
      end
  end.

(** [SparseMemoryImage(vmh_filename=...)] on the lines of the file. *)
Definition image_of_vmh (lines : list string)
  : image_error + list (Z * list Z) :=
  match vmh_lines lines ([], None) with
  | inr st => inr st.1
  | inl e => inl e
  end.

End VmhLoader.

(** For the examples: the reading of strings of hexadecimal digits. *)
Definition hex_digit (c : Ascii.ascii) : option Z :=
  let n := Z.of_nat (Ascii.nat_of_ascii c) in
  if (48 <=? n)%Z && (n <=? 57)%Z then Some (n - 48)%Z
  else if (97 <=? n)%Z && (n <=? 102)%Z then Some (n - 87)%Z
  else if (65 <=? n)%Z && (n <=? 70)%Z then Some (n - 55)%Z
  else None.

Fixpoint hex_from (s : string) (acc : Z) : option Z :=
  match s with
  | EmptyString => Some acc
  | String c s' =>
      match hex_digit c with
      | Some d => hex_from s' (16 * acc + d)
      | None => None
      end
  end.

Definition ex_int16 (s : string) : option Z :=
  match s with
  | EmptyString => None
  | _ => hex_from s 0
  end.

Definition ex_vmh : list string :=
  ["// header" +:+ String "010"%char EmptyString;
   "@0 // zero" +:+ String "010"%char EmptyString;
   "ff" +:+ String "010"%char EmptyString;
   "@400 // text" +:+ String "010"%char EmptyString;
   "1f 00" +:+ String "010"%char EmptyString;
   String "010"%char EmptyString;
   "20" +:+ String "010"%char EmptyString]%string.

Definition ex_image : list (Z * list Z) :=
  [(1024, [1; 2]); (2048, [3])]%Z.

(** A label line and two data lines. *)
Definition ex_vmh_label : list string :=
  [String "@"%char ("400 // text" +:+ String "010"%char EmptyString);
   "1f 00" +:+ String "010"%char EmptyString;
   "20" +:+ String "010"%char EmptyString]%string.

(** ** Part III-d: [SystemCModel._auto_init] of
    [pymtl/tools/integration/systemc.py], the attribute [modulename]

    The truth value of an attribute that is [None] or a string. *)
Definition truth (s : option string) : bool :=
  match s with
  | None => false
  | Some x => negb (String.eqb x "")
  end.

(** What [_auto_init] leaves in [self.modulename]: the class name when the
    attribute is not set, and the prefix [scprefix] and an underscore in
    front unless the name starts with the prefix already.  ([scprefix] is
    not defined in this file: it is a parameter; the other attributes that
    [_auto_init] fills do not enter this computation.) *)
Definition auto_init_modulename (class_name : string)
  (scprefix modulename : option string) : string :=
  let m := if truth modulename then default ""%string modulename
           else class_name in
  if truth scprefix && negb (String.prefix (default ""%string scprefix) m)
  then default ""%string scprefix +:+ "_" +:+ m
  else m.

(** ** Part IV: properties of ports, nodes and slices *)

Section PortFacts.

Implicit Types (h : Heap) (p n : nat) (P : VerilogPort).

Lemma get_port_Some h p P : ports h !! p = Some P → get_port p h = inr P.
Proof. unfold get_port. by intros ->. Qed.

Lemma lookup_put_port h p P P' :
  ports h !! p = Some P → ports (put_port p P' h) !! p = Some P'.
Proof.
  intros Hp. simpl. apply list_lookup_insert_eq.
  by eapply lookup_lt_Some.
Qed.

Lemma lookup_new_node (l : list ValueNode) nd : (l ++ [nd]) !! length l = Some nd.
Proof. rewrite lookup_app_r by lia. by rewrite Nat.sub_diag. Qed.

(** Reading a port whose [_value] is a node returns the node's value. *)
Lemma port_value_node fuel h p P n nd :
  ports h !! p = Some P → p_value P = Some (AtNode n) →
  nodes h !! n = Some nd →
  port_value (S fuel) p h = inr (Some (vn_value nd)).
Proof.
  intros Hp Hv Hn. simpl. rewrite (get_port_Some _ _ _ Hp). simpl.
  rewrite Hv. unfold get_node. by rewrite Hn.
Qed.

(** Reading a port whose [_value] is [None] returns [None]. *)
Lemma port_value_None fuel h p P :
  ports h !! p = Some P → p_value P = None →
  port_value (S fuel) p h = inr None.
Proof.
  intros Hp Hv. simpl. rewrite (get_port_Some _ _ _ Hp). simpl. by rewrite Hv.
Qed.

(** A read returns an integer only from a port whose [_value] is set. *)
Lemma port_value_Some_inv fuel h p z :
  port_value fuel p h = inr (Some z) →
  ∃ P r, ports h !! p = Some P ∧ p_value P = Some r.
Proof.
  destruct fuel as [|fuel]; [done|]. simpl. unfold get_port.
  destruct (ports h !! p) as [P|] eqn:Hp; [|done]. simpl.
  destruct (p_value P) as [r|] eqn:Hv; [|done]. eauto.
Qed.

(** [connect] with an [int], on any port. *)
Lemma connect_int fuel h p P v :
  ports h !! p = Some P →
  ∃ h',
    connect p (TInt v) h = inr h' ∧
    ports h' !! p =
      Some (mkPort (p_type P) (p_width P) (p_name P) (p_parent P)
              (p_connections P ++ [EConstant (mkConstant v (p_width P))])
              (Some (AtNode (length (nodes h))))) ∧
    nodes h' = nodes h ++ [mkValueNode false (p_width P) v] ∧
    out h' = out h ∧
    port_value (S fuel) p h' = inr (Some v).
Proof.
  intros Hp. unfold connect. rewrite (get_port_Some _ _ _ Hp). simpl.
  unfold add_connection. rewrite (get_port_Some _ _ _ Hp). simpl.
  unfold set_port_ref, get_port. simpl.
  rewrite (list_lookup_insert_eq (ports h)) by (by eapply lookup_lt_Some).
  simpl. eexists. split; [reflexivity|]. simpl.
  rewrite list_insert_insert_eq.
  rewrite (list_lookup_insert_eq (ports h)) by (by eapply lookup_lt_Some).
  repeat split.
  unfold get_port, get_node. simpl.
  rewrite ?list_lookup_insert_eq
    by (rewrite ?length_insert; by eapply lookup_lt_Some).
  simpl. by rewrite lookup_new_node.
Qed.

(** Writing a port whose [_value] is [None]. *)
Lemma write_None fuel fuel' h p P value :
  ports h !! p = Some P → p_value P = None →
  ∃ h',
    set_port_value (S fuel) p value h = inr h' ∧
    out h' = out h ++ [WarnUnconnected (p_parent P) (p_name P)] ∧
    nodes h' = nodes h ++ [mkValueNode false (p_width P) value] ∧
    ports h' !! p =
      Some (mkPort (p_type P) (p_width P) (p_name P) (p_parent P)
              (p_connections P) (Some (AtNode (length (nodes h))))) ∧
    port_value (S fuel') p h' = inr (Some value).
Proof.
  intros Hp Hv. simpl. rewrite (get_port_Some _ _ _ Hp). simpl. rewrite Hv.
  unfold set_port_ref, get_port. simpl. rewrite Hp. simpl.
  eexists. split; [reflexivity|]. simpl.
  rewrite (list_lookup_insert_eq (ports h)) by (by eapply lookup_lt_Some).
  repeat split.
  unfold get_port, get_node. simpl.
  rewrite ?list_lookup_insert_eq
    by (rewrite ?length_insert; by eapply lookup_lt_Some).
  simpl. by rewrite lookup_new_node.
Qed.

(** After [a.connect(b)] on ports of equal width, [a] and [b] hold the same
    reference, whatever they held before. *)
Lemma connect_ports_share h a b A B :
  ports h !! a = Some A → ports h !! b = Some B → p_width A = p_width B →
  ∃ h' r,
    connect a (TPort b) h = inr h' ∧
    p_value <$> ports h' !! a = Some (Some r) ∧
    p_value <$> ports h' !! b = Some (Some r).
Proof.
  intros Ha Hb Hw.
  pose proof (lookup_lt_Some _ _ _ Ha) as La.
  pose proof (lookup_lt_Some _ _ _ Hb) as Lb.
  unfold connect, add_connection, set_port_ref, get_port, new_ValueNode,
    put_port.
  destruct (p_value B) as [r|] eqn:HvB;
    (destruct (decide (a = b)) as [->|Hne];
     [assert (A = B) as -> by congruence|]);
    repeat (cbn [res_bind ports nodes out p_value p_width fst snd];
            rewrite ?Ha, ?Hb, ?HvB, ?decide_True, ?list_lookup_insert_eq,
              ?list_lookup_insert_ne by (rewrite ?length_insert; first [lia|done]));
    eexists _, _; (split; [reflexivity|]);
    repeat (cbn [res_bind ports nodes out p_value p_width fst snd fmap
                 option_fmap option_map];
            rewrite ?list_lookup_insert_eq, ?list_lookup_insert_ne
              by (rewrite ?length_insert; first [lia|done]));
    done.
Qed.

(** What the slice setter stores when the sliced port has a node: the old
    value or-ed with the shifted argument. *)
Lemma slice_write_or fuel h p P n nd i b :
  ports h !! p = Some P → p_value P = Some (AtNode n) →
  nodes h !! n = Some nd → (0 ≤ i)%Z →
  ∃ h',
    set_slice_value (S fuel) (getitem p i) b h = inr h' ∧
    ports h' = ports h ∧
    nodes h' =
      <[n := mkValueNode (vn_sim nd) (vn_width nd)
               (Z.lor (vn_value nd) (Z.shiftl b i))]> (nodes h).
Proof.
  intros Hp Hv Hn Hi. unfold set_slice_value. cbn [getitem parent_ptr sl_addr].
  rewrite (port_value_node _ _ _ _ _ _ Hp Hv Hn). cbn [res_bind].
  unfold slice_or. destruct (Z.ltb_spec i 0) as [|_]; [lia|]. cbn [res_bind].
  cbn [set_port_value]. rewrite (get_port_Some _ _ _ Hp). cbn [res_bind].
  rewrite Hv. unfold set_node_value, get_node. rewrite Hn. cbn [res_bind].
  eexists. split; [reflexivity|]. done.
Qed.

End PortFacts.

(** C7 (amended).  For every width [w > 0] and value [v] in [[0, 2^w)],
    connecting a port of width [w] to the integer [v], when [v] is an [int]
    (it does not exceed [sys.maxint]), appends a constant endpoint of the
    port's width to the port's connections, installs a new node that holds
    [v], and the port then reads [v].  The branch has no assertion on widths
    (the general statement is [connect_int]).  When [v] exceeds [sys.maxint]
    it is a [long], which the test [isinstance(target, int)] excludes:
    [connect] raises [AttributeError]. *)
Theorem connect_constant_value (fuel : nat) (maxint : Z) (h : Heap) (p : nat)
  (P : VerilogPort) (v : Z) :
  ports h !! p = Some P →
  (0 < p_width P)%Z → (0 ≤ v < 2 ^ p_width P)%Z →
  ((v ≤ maxint)%Z →
   ∃ h',
     connect p (py_integer maxint v) h = inr h' ∧
     ports h' !! p =
       Some (mkPort (p_type P) (p_width P) (p_name P) (p_parent P)
               (p_connections P ++ [EConstant (mkConstant v (p_width P))])
               (Some (AtNode (length (nodes h))))) ∧
     nodes h' = nodes h ++ [mkValueNode false (p_width P) v] ∧
     out h' = out h ∧
     port_value (S fuel) p h' = inr (Some v)) ∧
  ((maxint < v)%Z →
   connect p (py_integer maxint v) h = inl AttributeError).
Proof.
  intros Hp _ Hv. split; intros Hm.
  - assert (fits_int maxint v = true) as Hfit.
    { unfold fits_int. apply andb_true_intro. split; apply Z.leb_le; lia. }
    unfold py_integer. rewrite Hfit. by apply connect_int.
  - assert (fits_int maxint v = false) as Hfit.
    { unfold fits_int. apply andb_false_intro2. apply Z.leb_gt. lia. }
    unfold py_integer. rewrite Hfit.
    unfold connect. by rewrite (get_port_Some _ _ _ Hp).
Qed.

Lemma connect_constant_value_witness :
  ∃ h',
    connect 0 (py_integer (2 ^ 63 - 1) 200) (InPort 8 empty_heap).2 = inr h' ∧
    ports h' !! 0 =
      Some (mkPort (Some "input"%string) 8 "???" None
              [EConstant (mkConstant 200 8)] (Some (AtNode 0))) ∧
    nodes h' = [mkValueNode false 8 200] ∧
    out h' = [] ∧
    port_value 1 0 h' = inr (Some 200%Z).
Proof.
  assert (H0 : ports (InPort 8 empty_heap).2 !! 0
               = Some (mkPort (Some "input"%string) 8 "???" None [] None))
    by reflexivity.
  assert (H1 : (0 < 8)%Z) by lia.
  assert (H2 : (0 ≤ 200 < 2 ^ 8)%Z) by lia.
  assert (H3 : (200 ≤ 2 ^ 63 - 1)%Z) by lia.
  exact (proj1 (connect_constant_value 0 (2 ^ 63 - 1) (InPort 8 empty_heap).2 0
                  (mkPort (Some "input"%string) 8 "???" None [] None) 200
                  H0 H1 H2) H3).
Defined.

(** C7 (as the claim states it, the code departs): on a platform whose
    [sys.maxint] is [2^63 - 1], the value [2^63] lies in [[0, 2^64)] and is
    a [long]; connecting a port of width 64 to it raises [AttributeError],
    and the port is not connected. *)
Lemma connect_constant_long_raises :
  (0 ≤ 2 ^ 63 < 2 ^ 64)%Z ∧
  py_integer (2 ^ 63 - 1) (2 ^ 63) = TLong (2 ^ 63) ∧
  connect 0 (py_integer (2 ^ 63 - 1) (2 ^ 63)) (InPort 64 empty_heap).2
  = inl AttributeError.
Proof. split; [lia|]. split; reflexivity. Qed.

(** C8.  Writing a value to a port that has no node prints the warning,
    allocates a new node initialised to the written value, installs it in
    the port and raises nothing; the port then reads the written value. *)
Theorem write_unconnected_port (fuel fuel' : nat) (h : Heap) (p : nat)
  (P : VerilogPort) (value : Z) :
  ports h !! p = Some P → p_value P = None →
  ∃ h',
    set_port_value (S fuel) p value h = inr h' ∧
    out h' = out h ++ [WarnUnconnected (p_parent P) (p_name P)] ∧
    nodes h' = nodes h ++ [mkValueNode false (p_width P) value] ∧
    ports h' !! p =
      Some (mkPort (p_type P) (p_width P) (p_name P) (p_parent P)
              (p_connections P) (Some (AtNode (length (nodes h))))) ∧
    port_value (S fuel') p h' = inr (Some value).
Proof. apply write_None. Qed.

Lemma write_unconnected_port_witness :
  ∃ h',
    set_port_value 1 0 42 (OutPort 8 empty_heap).2 = inr h' ∧
    out h' = [WarnUnconnected None "???"] ∧
    nodes h' = [mkValueNode false 8 42] ∧
    ports h' !! 0 =
      Some (mkPort (Some "output"%string) 8 "???" None [] (Some (AtNode 0))) ∧
    port_value 1 0 h' = inr (Some 42%Z).
Proof.
  apply (write_unconnected_port 0 0 (OutPort 8 empty_heap).2 0
           (mkPort (Some "output"%string) 8 "???" None [] None) 42).
  - reflexivity.
  - reflexivity.
Defined.

(** C10.  A port as [__init__] leaves it reads [None]: no exception and no
    number.  A first write and a connection to a constant (an [int]: a value
    that fits one on the platform) each make the port read an integer.
    (That a read returns an integer only from a port whose [_value] has been
    set is [port_value_Some_inv].) *)
Theorem unconnected_port_reads_None (fuel : nat) (h : Heap)
  (type : option string) (width : Z) :
  let '(p, h0) := new_VerilogPort type width h in
  port_value (S fuel) p h0 = inr None ∧
  (∀ v, ∃ h1, set_port_value (S fuel) p v h0 = inr h1 ∧
              port_value (S fuel) p h1 = inr (Some v)) ∧
  (∀ maxint v, fits_int maxint v = true →
     ∃ h1, connect p (py_integer maxint v) h0 = inr h1 ∧
           port_value (S fuel) p h1 = inr (Some v)).
Proof.
  simpl.
  assert ((ports h ++ [mkPort type width "???" None [] None]) !! length (ports h)
          = Some (mkPort type width "???" None [] None)) as Hp.
  { rewrite lookup_app_r by lia. by rewrite Nat.sub_diag. }
  split; [|split].
  - by apply (port_value_None fuel (new_VerilogPort type width h).2 _ _ Hp).
  - intros v.
    edestruct (write_None fuel fuel (new_VerilogPort type width h).2 _ _ v Hp)
      as (h1 & ? & _ & _ & _ & ?); [done|]. eauto.
  - intros maxint v Hfit. unfold py_integer. rewrite Hfit.
    edestruct (connect_int fuel (new_VerilogPort type width h).2 _ _ v Hp)
      as (h1 & ? & _ & _ & _ & ?).
    eauto.
Qed.

(** C1 (the code departs from the claim).  [a.connect(b); a.connect(c)]:
    the second call finds no node in [c] and gives [a] a new one, which [b]
    does not see.  After [a.value = 5], [a] and [c] read 5 and [b] reads 0:
    the three connected ports are on two nodes. *)
Theorem connect_splits_component :
  ∃ h,
    three_ports = inr (0, 1, 2, h) ∧
    port_value 10 0 h = inr (Some 5%Z) ∧
    port_value 10 1 h = inr (Some 0%Z) ∧
    port_value 10 2 h = inr (Some 5%Z) ∧
    p_value <$> ports h !! 0 = Some (Some (AtNode 1)) ∧
    p_value <$> ports h !! 1 = Some (Some (AtNode 0)) ∧
    p_value <$> ports h !! 2 = Some (Some (AtNode 1)).
Proof. eexists. vm_compute. repeat split. Qed.

(** C4 (the code departs from the claim).  On a port whose node holds 1,
    writing 0 to the slice of bit 0 and reading the slice back returns 1:
    the setter or-s the bits in ([slice_write_or]) and cannot clear one. *)
Theorem slice_write_cannot_clear : clear_bit = inr (Some 1%Z).
Proof. reflexivity. Qed.

(** ** Part V: properties of elaboration *)





(** ** Part VI: properties of the simulator *)

Section QueueFacts.

Context {A : Type}.
Implicit Types (l r : list A) (x : A).

Lemma pop_nil : pop (@nil A) = None.
Proof. reflexivity. Qed.

Lemma pop_snoc l x : pop (l ++ [x]) = Some (l, x).
Proof. unfold pop. by rewrite reverse_snoc, reverse_involutive. Qed.

Lemma pop_Some_inv l r x : pop l = Some (r, x) → l = r ++ [x].
Proof.
  unfold pop. destruct (reverse l) as [|y t] eqn:E; [done|].
  intros [= <- <-]. rewrite <- (reverse_involutive l), E.
  by rewrite reverse_cons.
Qed.

Lemma pop_None_inv l : pop l = None → l = [].
Proof.
  unfold pop. destruct (reverse l) as [|y t] eqn:E; [|done].
  intros _. by rewrite <- (reverse_involutive l), E.
Qed.

Context `{EqDecision A}.

Lemma count_nil x : count x [] = 0.
Proof. reflexivity. Qed.

Lemma count_app x l r : count x (l ++ r) = count x l + count x r.
Proof. unfold count. by rewrite filter_app, length_app. Qed.

Lemma count_cons_eq x l : count x (x :: l) = S (count x l).
Proof. unfold count. by rewrite filter_cons_True. Qed.

Lemma count_cons_ne x y l : x ≠ y → count x (y :: l) = count x l.
Proof. intros. unfold count. by rewrite filter_cons_False. Qed.

Lemma count_not_elem x l : x ∉ l → count x l = 0.
Proof.
  induction l as [|y l IH]; [done|]. intros Hx.
  apply not_elem_of_cons in Hx as [??].
  rewrite count_cons_ne by done. auto.
Qed.

Lemma count_NoDup x l : NoDup l → x ∈ l → count x l = 1.
Proof.
  induction 1 as [|y l Hy Hl IH]; [by intros ?%elem_of_nil|].
  intros [->|Hx]%elem_of_cons.
  - by rewrite count_cons_eq, count_not_elem.
  - rewrite count_cons_ne by (intros ->; done). auto.
Qed.

End QueueFacts.

Section AddEvent.

Implicit Types (q funcs new : list nat) (f : nat) (s : SimulationTool).

Lemma add_funcs_cons g funcs q :
  add_funcs (g :: funcs) q =
  add_funcs funcs (if decide (g ∈ q) then q else appendleft g q).
Proof. reflexivity. Qed.

(** The loop of [add_event] only pushes on the left, and pushes functions of
    [funcs] that were not pending, each once. *)
Lemma add_funcs_spec funcs q :
  ∃ new, add_funcs funcs q = new ++ q ∧
         (∀ f, f ∈ new → f ∈ funcs ∧ f ∉ q) ∧ NoDup new.
Proof.
  revert q. induction funcs as [|g funcs IH]; intros q.
  - exists []. split; [done|]. split; [by intros ? ?%elem_of_nil|constructor].
  - rewrite add_funcs_cons. destruct (decide (g ∈ q)) as [Hg|Hg].
    + destruct (IH q) as (new & -> & Hnew & Hnd).
      exists new. split; [done|]. split; [|done].
      intros f Hf. destruct (Hnew f Hf). split; [by right|done].
    + destruct (IH (appendleft g q)) as (new & -> & Hnew & Hnd).
      exists (new ++ [g]). split; [by rewrite <- app_assoc|]. split.
      * intros f [Hf| ->%list_elem_of_singleton]%elem_of_app.
        -- destruct (Hnew f Hf) as [? Hq]. split; [by right|].
           intros ?. apply Hq. by right.
        -- split; [by left|done].
      * apply NoDup_app. split; [done|]. split; [|apply NoDup_singleton].
        intros f Hf ->%list_elem_of_singleton.
        destruct (Hnew g Hf) as [_ Hq]. apply Hq. by left.
Qed.

Lemma add_funcs_NoDup funcs q : NoDup q → NoDup (add_funcs funcs q).
Proof.
  intros Hq. destruct (add_funcs_spec funcs q) as (new & -> & Hnew & Hnd).
  apply NoDup_app. split; [done|]. split; [|done].
  intros f Hf. by destruct (Hnew f Hf).
Qed.

Lemma add_funcs_keeps funcs q f : f ∈ q → f ∈ add_funcs funcs q.
Proof.
  intros Hf. destruct (add_funcs_spec funcs q) as (new & -> & _).
  apply elem_of_app. by right.
Qed.

Lemma add_funcs_pending funcs q f : f ∈ funcs → f ∈ add_funcs funcs q.
Proof.
  revert q. induction funcs as [|g funcs IH]; intros q; [by intros ?%elem_of_nil|].
  rewrite add_funcs_cons.
  intros [->|Hf]%elem_of_cons; [|by apply IH].
  apply add_funcs_keeps. destruct (decide (g ∈ q)); [done|by left].
Qed.

(** [add_event] changes the event queue only, and only by pushing on its
    left functions registered for the node. *)
Lemma add_event_spec n s :
  ∃ new,
    add_event n s = set_event_queue (new ++ event_queue s) s ∧
    NoDup new ∧
    ∀ f, f ∈ new →
         (f ∉ event_queue s) ∧
         (∃ funcs, vnode_callbacks s !! n = Some funcs ∧ f ∈ funcs).
Proof.
  unfold add_event. destruct (vnode_callbacks s !! n) as [funcs|] eqn:E.
  - destruct (add_funcs_spec funcs (event_queue s)) as (new & -> & Hnew & Hnd).
    exists new. split; [done|]. split; [done|].
    intros f Hf. destruct (Hnew f Hf). eauto.
  - exists []. split; [by destruct s|]. split; [constructor|].
    by intros ? ?%elem_of_nil.
Qed.

(** The setter of a node changes the node and the event queue only. *)
Lemma set_value_spec n value s :
  ∃ new m,
    set_value n value s = set_nodes m (set_event_queue (new ++ event_queue s) s) ∧
    NoDup new ∧
    (∀ f, f ∈ new →
          (f ∉ event_queue s) ∧
          (∃ funcs, vnode_callbacks s !! n = Some funcs ∧ f ∈ funcs)) ∧
    (∀ k, k ≠ n → value_in m k = value_in (sim_nodes s) k) ∧
    (is_Some (sim_nodes s !! n) → value_in m n = value).
Proof.
  unfold set_value. destruct (sim_nodes s !! n) as [nd|] eqn:E.
  - destruct (vn_sim nd).
    + destruct (add_event_spec n s) as (new & -> & Hnd & Hnew).
      exists new, (<[n:=mkValueNode true (vn_width nd) value]> (sim_nodes s)).
      split; [done|]. split; [done|]. split; [done|]. split.
      * intros k Hk. unfold value_in. by rewrite lookup_insert_ne.
      * intros _. unfold value_in. by rewrite lookup_insert_eq.
    + exists [], (<[n:=mkValueNode false (vn_width nd) value]> (sim_nodes s)).
      split; [by destruct s|]. split; [constructor|].
      split; [by intros ? ?%elem_of_nil|]. split.
      * intros k Hk. unfold value_in. by rewrite lookup_insert_ne.
      * intros _. unfold value_in. by rewrite lookup_insert_eq.
  - exists [], (sim_nodes s). split; [by destruct s|]. split; [constructor|].
    split; [by intros ? ?%elem_of_nil|]. split; [done|].
    by intros [? [=]].
Qed.

End AddEvent.

Section TraceFacts.

Implicit Types (tr T : list label) (s : SimulationTool).

Lemma stages_app tr1 tr2 : stages (tr1 ++ tr2) = stages tr1 ++ stages tr2.
Proof. apply omap_app. Qed.

Lemma only_stages tr :
  Forall (λ l, is_stage l) tr → comb_calls tr = [] ∧ posedge_calls tr = [].
Proof.
  induction 1 as [|l tr Hl _ [IH1 IH2]]; [done|].
  destruct l; done.
Qed.

Lemma advance_refl s : advance [] s s.
Proof. unfold advance. by rewrite !app_nil_r. Qed.

Lemma advance_trans tr1 tr2 s1 s2 s3 :
  advance tr1 s1 s2 → advance tr2 s2 s3 → advance (tr1 ++ tr2) s1 s3.
Proof.
  intros (H1 & H2 & H3 & H4 & H5) (K1 & K2 & K3 & K4 & K5).
  unfold advance. rewrite K1, H1, K2, H2, stages_app, !app_assoc.
  repeat split; congruence.
Qed.

Lemma advance_set_value n value s : advance [] s (set_value n value s).
Proof.
  destruct (set_value_spec n value s) as (new & m & -> & _).
  unfold advance. cbn. by rewrite !app_nil_r.
Qed.

Lemma advance_stage r value s : advance [LStage r] s (stage r value s).
Proof. unfold advance, labels. cbn. by rewrite fmap_app. Qed.

Lemma advance_log l s : is_stage l = false → advance [l] s (log l s).
Proof.
  intros Hl. unfold advance, labels. cbn. rewrite fmap_app.
  destruct l; try done; by rewrite app_nil_r.
Qed.

Lemma advance_clock r s : advance [LCommit r] s (clock r s).
Proof.
  unfold clock. change [LCommit r] with ([LCommit r] ++ []).
  eapply advance_trans; [by apply advance_log|apply advance_set_value].
Qed.

Lemma advance_set_event_queue q s : advance [] s (set_event_queue q s).
Proof. unfold advance. cbn. by rewrite !app_nil_r. Qed.

(** An invariant of the setter and of staging is an invariant of running a
    body that respects the side conditions. *)
Lemma run_inv (I : SimulationTool → Prop) (W R : nat → Prop) :
  (∀ n value s, W n → I s → I (set_value n value s)) →
  (∀ r value s, R r → I s → I (stage r value s)) →
  ∀ p s, respects W R p → I s → I (run p s).
Proof.
  intros Hset Hstage. induction p as [|n k IH|n value k IH|r value k IH];
    intros s Hp Hs; cbn in *.
  - done.
  - by apply IH.
  - destruct Hp. apply IH; [done|]. by apply Hset.
  - destruct Hp. apply IH; [done|]. by apply Hstage.
Qed.

Lemma respects_True p : respects (λ _, True) (λ _, True) p.
Proof. induction p; cbn; auto. Qed.

(** Running a body adds [LStage] labels only. *)
Lemma advance_run p s :
  ∃ tr, advance tr s (run p s) ∧ Forall (λ l, is_stage l) tr.
Proof.
  apply (run_inv (λ s', ∃ tr, advance tr s s' ∧ Forall (λ l, is_stage l) tr)
           (λ _, True) (λ _, True)).
  - intros n value s' _ (tr & Htr & Hall). exists tr. split; [|done].
    rewrite <- (app_nil_r tr). eapply advance_trans; [done|].
    apply advance_set_value.
  - intros r value s' _ (tr & Htr & Hall). exists (tr ++ [LStage r]). split.
    + eapply advance_trans; [done|]. apply advance_stage.
    + apply Forall_app. split; [done|]. by repeat constructor.
  - apply respects_True.
  - exists []. split; [apply advance_refl|constructor].
Qed.

(** Running a body only pushes on the left of the event queue. *)
Lemma run_queue p s : ∃ new, event_queue (run p s) = new ++ event_queue s.
Proof.
  apply (run_inv (λ s', ∃ new, event_queue s' = new ++ event_queue s)
           (λ _, True) (λ _, True)).
  - intros n value s' _ (new & Hnew).
    destruct (set_value_spec n value s') as (new' & m & -> & _).
    exists (new' ++ new). cbn. by rewrite Hnew, app_assoc.
  - intros r value s' _ (new & Hnew). exists new. by cbn.
  - apply respects_True.
  - by exists [].
Qed.

Section WithBodies.

Variable body : nat → prog.
Variable clk : nat.

Lemma advance_call kind f s :
  is_stage (kind f) = false →
  ∃ tr, advance (kind f :: tr) s (call body kind f s) ∧
        Forall (λ l, is_stage l) tr.
Proof.
  intros Hk. unfold call.
  destruct (advance_run (body f) (log (kind f) s)) as (tr & Htr & Hall).
  exists tr. split; [|done].
  change (kind f :: tr) with ([kind f] ++ tr).
  eapply advance_trans; [|done]. by apply advance_log.
Qed.

Lemma drain_step fuel s q g :
  pop (event_queue s) = Some (q, g) →
  drain body (S fuel) s = drain body fuel (call body LComb g (set_event_queue q s)).
Proof. intros H. cbn. by rewrite H. Qed.

Lemma drain_done fuel s : pop (event_queue s) = None → drain body fuel s = Some s.
Proof. intros H. destruct fuel; cbn; by rewrite H. Qed.

Lemma drain_out_of_fuel s q g :
  pop (event_queue s) = Some (q, g) → drain body 0 s = None.
Proof. intros H. cbn. by rewrite H. Qed.

(** The loop of [eval_combinational] adds [LComb] and [LStage] labels. *)
Lemma advance_drain fuel s s' :
  drain body fuel s = Some s' →
  ∃ T, advance T s s' ∧ Forall (λ l, is_comb l || is_stage l) T.
Proof.
  revert s. induction fuel as [|fuel IH]; intros s;
    destruct (pop (event_queue s)) as [[q g]|] eqn:Hpop.
  - by rewrite (drain_out_of_fuel _ _ _ Hpop).
  - rewrite (drain_done _ _ Hpop). intros [= <-].
    exists []. split; [apply advance_refl|constructor].
  - rewrite (drain_step _ _ _ _ Hpop). intros Hd.
    destruct (IH _ Hd) as (T & HT & Hall).
    destruct (advance_call LComb g (set_event_queue q s) eq_refl)
      as (tr & Htr & Hst).
    exists ((LComb g :: tr) ++ T). split.
    + eapply advance_trans; [|done].
      change (LComb g :: tr) with ([] ++ LComb g :: tr).
      eapply advance_trans; [apply advance_set_event_queue|done].
    + apply Forall_app. split; [|done]. constructor; [done|].
      eapply Forall_impl; [done|]. intros l Hl. cbn in Hl.
      apply orb_True. by right.
  - rewrite (drain_done _ _ Hpop). intros [= <-].
    exists []. split; [apply advance_refl|constructor].
Qed.

(** The loop over [posedge_clk_fns] calls the functions in the order of the
    list. *)
Lemma advance_posedge fns s :
  ∃ T, advance T s (foldl (λ s func, call body LPosedge func s) s fns) ∧
       posedge_calls T = fns ∧
       Forall (λ l, is_posedge l || is_stage l) T.
Proof.
  revert s. induction fns as [|f fns IH]; intros s; cbn [foldl].
  - exists []. split; [apply advance_refl|]. split; [done|constructor].
  - destruct (advance_call LPosedge f s eq_refl) as (tr & Htr & Hst).
    destruct (IH (call body LPosedge f s)) as (T & HT & Hcalls & Hall).
    exists ((LPosedge f :: tr) ++ T). split; [by eapply advance_trans|]. split.
    + unfold posedge_calls in *. rewrite omap_app. cbn.
      destruct (only_stages tr Hst) as [_ E]. unfold posedge_calls in E.
      by rewrite E, Hcalls.
    + apply Forall_app. split; [|done]. constructor; [done|].
      eapply Forall_impl; [done|]. intros l Hl. cbn in Hl.
      apply orb_True. by right.
Qed.

(** The commit loop clocks the pending registers from the last staged to the
    first, and leaves none pending. *)
Lemma commit_loop_spec n s :
  length (rnode_callbacks s) ≤ n →
  let s' := commit_loop n s in
  labels (trace s') = labels (trace s) ++ (LCommit <$> reverse (rnode_callbacks s)) ∧
  rnode_callbacks s' = [] ∧
  posedge_clk_fns s' = posedge_clk_fns s ∧
  num_cycles s' = num_cycles s ∧
  vnode_callbacks s' = vnode_callbacks s.
Proof.
  revert s. induction n as [|n IH]; intros s Hlen; cbn.
  - destruct (rnode_callbacks s); [|cbn in Hlen; lia].
    by rewrite app_nil_r.
  - destruct (pop (rnode_callbacks s)) as [[rest reg]|] eqn:Hpop.
    + apply pop_Some_inv in Hpop.
      destruct (advance_clock reg (set_rnode_callbacks rest s))
        as (H1 & H2 & H3 & H4 & H5).
      cbn in H1, H2, H3, H4, H5. rewrite app_nil_r in H2.
      destruct (IH (clock reg (set_rnode_callbacks rest s)))
        as (K1 & K2 & K3 & K4 & K5).
      { rewrite H2. rewrite Hpop, length_app in Hlen. cbn in Hlen. lia. }
      rewrite K1, K2, K3, K4, K5, H1, H2, H3, H4, H5.
      rewrite Hpop, reverse_snoc. cbn. rewrite <- app_assoc. done.
    + apply pop_None_inv in Hpop. rewrite Hpop. by rewrite app_nil_r.
Qed.

Lemma commit_registers_spec s :
  let s' := commit_registers s in
  labels (trace s') = labels (trace s) ++ (LCommit <$> reverse (rnode_callbacks s)) ∧
  rnode_callbacks s' = [] ∧
  posedge_clk_fns s' = posedge_clk_fns s ∧
  num_cycles s' = num_cycles s ∧
  vnode_callbacks s' = vnode_callbacks s.
Proof. by apply commit_loop_spec. Qed.

Lemma advance_kernel_write n value s :
  advance [LSet n value] s (kernel_write n value s).
Proof.
  unfold kernel_write. change [LSet n value] with ([LSet n value] ++ []).
  eapply advance_trans; [by apply advance_log|apply advance_set_value].
Qed.

(** The shape of one call of [cycle]. *)
Lemma cycle_shape fuel s s' :
  cycle body clk fuel s = Some s' →
  ∃ T, labels (trace s') = labels (trace s) ++ T ∧
       cycle_trace clk (posedge_clk_fns s) (rnode_callbacks s) T ∧
       num_cycles s' = (num_cycles s + 1)%Z ∧
       posedge_clk_fns s' = posedge_clk_fns s ∧
       vnode_callbacks s' = vnode_callbacks s.
Proof.
  unfold cycle, eval_combinational. intros Hc.
  apply bind_Some in Hc as (s1 & H1 & Hc).
  apply bind_Some in Hc as (s6 & H6 & [= <-]).
  set (s3 := kernel_write clk 1 (kernel_write clk 0 s1)) in *.
  set (s4 := foldl (λ s func, call body LPosedge func s) s3 (posedge_clk_fns s3))
    in *.
  apply advance_drain in H1 as (T1 & A1 & F1).
  apply advance_drain in H6 as (T3 & A6 & F3).
  destruct (advance_posedge (posedge_clk_fns s3) s3) as (T2 & A4 & C2 & F2).
  fold s4 in A4.
  assert (advance ([LSettle] ++ T1 ++ [LSet clk 0] ++ [LSet clk 1]) s s3) as A3.
  { eapply advance_trans; [by apply advance_log|].
    eapply advance_trans; [done|].
    eapply advance_trans; apply advance_kernel_write. }
  assert (advance (([LSettle] ++ T1 ++ [LSet clk 0] ++ [LSet clk 1]) ++ T2) s s4)
    as (L4 & R4 & P4 & N4 & V4) by by eapply advance_trans.
  destruct A3 as (_ & _ & P3 & _).
  destruct (commit_registers_spec s4) as (L5 & R5 & P5 & N5 & V5).
  assert (advance ([LSettle] ++ T3) (commit_registers s4) s6)
    as (L6 & R6 & P6 & N6 & V6).
  { eapply advance_trans; [by apply advance_log|done]. }
  exists (LSettle :: T1 ++ [LSet clk 0; LSet clk 1] ++ T2
          ++ (LCommit <$> reverse (rnode_callbacks s ++ stages T1 ++ stages T2))
          ++ LSettle :: T3).
  split; [|split; [|split; [|split]]].
  - cbn [trace set_num_cycles]. rewrite L6, L5, L4, R4.
    rewrite !stages_app. cbn [stages omap app]. rewrite !app_nil_r.
    cbn. rewrite <- !app_assoc. cbn. by rewrite <- !app_assoc.
  - exists T1, T2, T3. rewrite <- P3. done.
  - cbn. congruence.
  - cbn. congruence.
  - cbn. congruence.
Qed.

(** [eval_combinational] returns with an empty queue. *)
Lemma drain_empties fuel s s' :
  drain body fuel s = Some s' → event_queue s' = [].
Proof.
  revert s. induction fuel as [|fuel IH]; intros s;
    destruct (pop (event_queue s)) as [[q g]|] eqn:Hpop.
  - by rewrite (drain_out_of_fuel _ _ _ Hpop).
  - rewrite (drain_done _ _ Hpop). intros [= <-]. by apply pop_None_inv.
  - rewrite (drain_step _ _ _ _ Hpop). apply IH.
  - rewrite (drain_done _ _ Hpop). intros [= <-]. by apply pop_None_inv.
Qed.

(** The functions that are pending when the loop starts are called from the
    right end of the queue to the left end, before any function that is
    scheduled while the loop runs. *)
Lemma drain_fifo fuel s s' :
  drain body fuel s = Some s' →
  ∃ T rest, labels (trace s') = labels (trace s) ++ T ∧
            comb_calls T = reverse (event_queue s) ++ rest.
Proof.
  revert s. induction fuel as [|fuel IH]; intros s;
    destruct (pop (event_queue s)) as [[q g]|] eqn:Hpop.
  - by rewrite (drain_out_of_fuel _ _ _ Hpop).
  - rewrite (drain_done _ _ Hpop). intros [= <-]. apply pop_None_inv in Hpop.
    exists [], []. by rewrite Hpop, app_nil_r.
  - rewrite (drain_step _ _ _ _ Hpop). intros Hd.
    apply pop_Some_inv in Hpop.
    destruct (IH _ Hd) as (T & rest & HT & Hcalls).
    destruct (advance_call LComb g (set_event_queue q s) eq_refl)
      as (tr & (Htr & _) & Hst).
    destruct (run_queue (body g) (log (LComb g) (set_event_queue q s)))
      as (new & Hnew).
    fold (call body LComb g (set_event_queue q s)) in Hnew.
    exists ((LComb g :: tr) ++ T), (reverse new ++ rest). split.
    + rewrite HT, Htr. cbn. by rewrite <- app_assoc.
    + unfold comb_calls in *. rewrite omap_app. cbn.
      destruct (only_stages tr Hst) as [E _]. unfold comb_calls in E.
      rewrite E, Hcalls, Hnew, Hpop. cbn.
      by rewrite reverse_app, reverse_snoc, <- app_assoc.
  - rewrite (drain_done _ _ Hpop). intros [= <-]. apply pop_None_inv in Hpop.
    exists [], []. by rewrite Hpop, app_nil_r.
Qed.

(** A body that writes no node [f] is registered for leaves the number of
    pending entries of [f] as it is. *)
Lemma run_keeps_pending f (cb : gmap nat (list nat)) p s :
  respects (λ n, ∀ fs, cb !! n = Some fs → f ∉ fs) (λ _, True) p →
  vnode_callbacks s = cb →
  vnode_callbacks (run p s) = cb ∧
  count f (event_queue (run p s)) = count f (event_queue s).
Proof.
  intros Hp Hcb.
  apply (run_inv (λ s', vnode_callbacks s' = cb ∧
                        count f (event_queue s') = count f (event_queue s))
           (λ n, ∀ fs, cb !! n = Some fs → f ∉ fs) (λ _, True)); [| |done..].
  - intros n value s' Hn [Hcb' Hc].
    destruct (set_value_spec n value s') as (new & m & -> & _ & Hnew & _).
    cbn [vnode_callbacks event_queue set_nodes set_event_queue].
    split; [done|]. rewrite count_app, Hc, count_not_elem; [done|].
    intros Hf. destruct (Hnew f Hf) as (_ & fs & Hfs & Hin).
    rewrite Hcb' in Hfs. by apply (Hn fs).
  - intros r value s' _ [Hcb' Hc]. by cbn.
Qed.

Lemma count_comb_stages f tr :
  Forall (λ l, is_stage l) tr → count (LComb f) tr = 0.
Proof.
  intros Hall. apply count_not_elem. intros Hin.
  by apply (proj1 (Forall_forall _ _) Hall) in Hin.
Qed.

(** If no body writes a node [f] is registered for, the loop of
    [eval_combinational] calls [f] once for each of its pending entries. *)
Lemma drain_calls f fuel s s' :
  (∀ g, respects (λ n, ∀ fs, vnode_callbacks s !! n = Some fs → f ∉ fs)
          (λ _, True) (body g)) →
  drain body fuel s = Some s' →
  count (LComb f) (labels (trace s')) =
  count (LComb f) (labels (trace s)) + count f (event_queue s).
Proof.
  remember (vnode_callbacks s) as cb eqn:Hcb. symmetry in Hcb.
  intros Hbody. revert s Hcb. induction fuel as [|fuel IH]; intros s Hcb;
    destruct (pop (event_queue s)) as [[q g]|] eqn:Hpop.
  - by rewrite (drain_out_of_fuel _ _ _ Hpop).
  - rewrite (drain_done _ _ Hpop). intros [= <-]. apply pop_None_inv in Hpop.
    rewrite Hpop. cbn. lia.
  - rewrite (drain_step _ _ _ _ Hpop). intros Hd.
    apply pop_Some_inv in Hpop.
    destruct (run_keeps_pending f cb (body g)
                (log (LComb g) (set_event_queue q s)) (Hbody g) Hcb)
      as [Hcb1 Hq1].
    destruct (advance_call LComb g (set_event_queue q s) eq_refl)
      as (tr & (Htr & _) & Hst).
    fold (call body LComb g (set_event_queue q s)) in Hcb1, Hq1.
    rewrite (IH _ Hcb1 Hd), Hq1, Htr, Hpop.
    cbn [trace event_queue set_event_queue log].
    rewrite !count_app. destruct (decide (f = g)) as [->|Hne].
    + rewrite !count_cons_eq, (count_comb_stages g tr Hst), count_nil. lia.
    + rewrite !count_cons_ne, (count_comb_stages f tr Hst), count_nil
        by congruence. lia.
  - rewrite (drain_done _ _ Hpop). intros [= <-]. apply pop_None_inv in Hpop.
    rewrite Hpop. cbn. lia.
Qed.

(** More fuel does not change a result. *)
Lemma drain_more_fuel fuel fuel' s s' :
  drain body fuel s = Some s' → fuel ≤ fuel' → drain body fuel' s = Some s'.
Proof.
  revert fuel' s. induction fuel as [|fuel IH]; intros fuel' s;
    destruct (pop (event_queue s)) as [[q g]|] eqn:Hpop.
  - by rewrite (drain_out_of_fuel _ _ _ Hpop).
  - rewrite !(drain_done _ _ Hpop). done.
  - intros Hd Hle. destruct fuel' as [|fuel']; [lia|].
    rewrite (drain_step _ _ _ _ Hpop) in Hd.
    rewrite (drain_step _ _ _ _ Hpop). apply IH; [done|lia].
  - rewrite !(drain_done _ _ Hpop). done.
Qed.

Lemma cycle_more_fuel fuel fuel' s s' :
  cycle body clk fuel s = Some s' → fuel ≤ fuel' →
  cycle body clk fuel' s = Some s'.
Proof.
  unfold cycle, eval_combinational. intros Hc Hle.
  apply bind_Some in Hc as (s1 & H1 & Hc).
  apply bind_Some in Hc as (s6 & H6 & [= <-]).
  rewrite (drain_more_fuel _ _ _ _ H1 Hle). cbn.
  by rewrite (drain_more_fuel _ _ _ _ H6 Hle).
Qed.

(** A body that writes only nodes nothing is registered for leaves the event
    queue as it is. *)
Lemma run_quiet (cb : gmap nat (list nat)) p s :
  respects (λ n, cb !! n = None) (λ _, True) p →
  vnode_callbacks s = cb →
  vnode_callbacks (run p s) = cb ∧ event_queue (run p s) = event_queue s.
Proof.
  intros Hp Hcb.
  apply (run_inv (λ s', vnode_callbacks s' = cb ∧
                        event_queue s' = event_queue s)
           (λ n, cb !! n = None) (λ _, True)); [| |done..].
  - intros n value s' Hn [Hcb' Hq].
    destruct (set_value_spec n value s') as (new & m & -> & _ & Hnew & _).
    cbn. split; [done|]. destruct new as [|g new]; [done|].
    destruct (Hnew g) as (_ & fs & Hfs & _); [by left|]. congruence.
  - intros r value s' _ [Hcb' Hq]. by cbn.
Qed.

(** With such bodies the loop of [eval_combinational] ends after as many
    calls as there are pending functions. *)
Lemma drain_total fuel s :
  (∀ g, respects (λ n, vnode_callbacks s !! n = None) (λ _, True) (body g)) →
  length (event_queue s) ≤ fuel →
  is_Some (drain body fuel s).
Proof.
  remember (vnode_callbacks s) as cb eqn:Hcb. symmetry in Hcb.
  intros Hbody. revert s Hcb. induction fuel as [|fuel IH]; intros s Hcb Hlen;
    destruct (pop (event_queue s)) as [[q g]|] eqn:Hpop.
  - apply pop_Some_inv in Hpop. rewrite Hpop, length_app in Hlen.
    cbn in Hlen. lia.
  - rewrite (drain_done _ _ Hpop). eauto.
  - rewrite (drain_step _ _ _ _ Hpop). apply pop_Some_inv in Hpop.
    destruct (run_quiet cb (body g) (log (LComb g) (set_event_queue q s))
                (Hbody g) Hcb) as [Hcb1 Hq1].
    apply IH; [done|]. unfold call. rewrite Hq1. cbn.
    rewrite Hpop, length_app in Hlen. cbn in Hlen. lia.
  - rewrite (drain_done _ _ Hpop). eauto.
Qed.

(** With such bodies every call of [cycle] returns, given enough fuel. *)
Lemma cycle_total s :
  (∀ g, respects (λ n, vnode_callbacks s !! n = None) (λ _, True) (body g)) →
  ∃ fuel s', cycle body clk fuel s = Some s'.
Proof.
  intros Hbody.
  destruct (drain_total (length (event_queue s)) (log LSettle s)) as [s1 H1];
    [done|done|].
  set (s3 := kernel_write clk 1 (kernel_write clk 0 s1)).
  set (s5 := commit_registers
               (foldl (λ s func, call body LPosedge func s) s3
                      (posedge_clk_fns s3))).
  assert (vnode_callbacks s5 = vnode_callbacks s) as Hcb.
  { unfold s5.
    destruct (commit_registers_spec
                (foldl (λ s func, call body LPosedge func s) s3
                       (posedge_clk_fns s3))) as (_ & _ & _ & _ & E5).
    destruct (advance_posedge (posedge_clk_fns s3) s3)
      as (T2 & (_ & _ & _ & _ & E4) & _).
    destruct (advance_kernel_write clk 1 (kernel_write clk 0 s1))
      as (_ & _ & _ & _ & E1).
    destruct (advance_kernel_write clk 0 s1) as (_ & _ & _ & _ & E0).
    apply advance_drain in H1 as (T1 & (_ & _ & _ & _ & E) & _).
    rewrite E5, E4. unfold s3. rewrite E1, E0, E. done. }
  destruct (drain_total (length (event_queue s5)) (log LSettle s5)) as [s6 H6];
    [by cbn; rewrite Hcb|done|].
  exists (length (event_queue s) `max` length (event_queue s5)).
  eexists. unfold cycle, eval_combinational.
  rewrite (drain_more_fuel _ _ _ _ H1) by lia. cbn. fold s3. fold s5.
  rewrite (drain_more_fuel _ _ _ _ H6) by lia. done.
Qed.

(** The event queue never holds a function twice. *)
Lemma add_event_NoDup n s :
  NoDup (event_queue s) → NoDup (event_queue (add_event n s)).
Proof.
  intros Hq. destruct (add_event_spec n s) as (new & -> & Hnd & Hnew). cbn.
  apply NoDup_app. split; [done|]. split; [|done].
  intros f Hf. by destruct (Hnew f Hf).
Qed.

Lemma set_value_NoDup n value s :
  NoDup (event_queue s) → NoDup (event_queue (set_value n value s)).
Proof.
  intros Hq.
  destruct (set_value_spec n value s) as (new & m & -> & Hnd & Hnew & _). cbn.
  apply NoDup_app. split; [done|]. split; [|done].
  intros f Hf. by destruct (Hnew f Hf).
Qed.

Lemma register_comb_NoDup func sens s :
  NoDup (event_queue s) → NoDup (event_queue (register_comb func sens s)).
Proof.
  unfold register_comb. revert s.
  induction sens as [|v sens IH]; intros s Hq; [done|].
  cbn [foldl]. apply IH. case_decide; cbn; [done|].
  apply NoDup_cons. split; [|done]. by cbn in *.
Qed.

Lemma foldl_preserves {X Y : Type} (I : X → Prop) (g : X → Y → X) l x :
  (∀ x y, I x → I (g x y)) → I x → I (foldl g x l).
Proof. intros Hg. revert x. induction l; cbn; auto. Qed.

Lemma construct_sim_NoDup nodes newsenses posedge_funcs :
  NoDup (event_queue (construct_sim nodes newsenses posedge_funcs)).
Proof.
  unfold construct_sim.
  apply (foldl_preserves (λ s, NoDup (event_queue s))); [by intros|].
  apply (foldl_preserves (λ s, NoDup (event_queue s))).
  - intros s [f sens] Hs. by apply register_comb_NoDup.
  - constructor.
Qed.

Lemma cycle_empties fuel s s' :
  cycle body clk fuel s = Some s' → event_queue s' = [].
Proof.
  unfold cycle, eval_combinational. intros Hc.
  apply bind_Some in Hc as (s1 & H1 & Hc).
  apply bind_Some in Hc as (s6 & H6 & [= <-]).
  cbn. by eapply drain_empties.
Qed.

Section ResetInvariant.

Variable reset_node : nat.
Variable pre : list event.

Lemma value_high_is_Some (m : gmap nat ValueNode) :
  value_in m reset_node = 1%Z → is_Some (m !! reset_node).
Proof. unfold value_in. destruct (m !! reset_node); [eauto|done]. Qed.

Lemma asserted_log l s :
  asserted reset_node pre s → asserted reset_node pre (log l s).
Proof.
  intros (Hv & Hr & mid & Hmid & Hall). split; [done|]. split; [done|].
  exists (mid ++ [mkEvent l (sim_nodes s)]). cbn. split.
  - by rewrite Hmid, app_assoc.
  - apply Forall_app. split; [done|]. by repeat constructor.
Qed.

Lemma asserted_set_value n value s :
  n ≠ reset_node →
  asserted reset_node pre s → asserted reset_node pre (set_value n value s).
Proof.
  intros Hn (Hv & Hr & Hmid).
  destruct (set_value_spec n value s) as (new & m & -> & _ & _ & Hm & _).
  split; [|done]. unfold node_value. cbn. by rewrite Hm.
Qed.

Lemma asserted_stage r value s :
  r ≠ reset_node →
  asserted reset_node pre s → asserted reset_node pre (stage r value s).
Proof.
  intros Hn Hs. apply (asserted_log (LStage r)) in Hs
    as (Hv & Hr & mid & Hmid & Hall).
  split; [done|]. split; [|by exists mid]. cbn in *.
  intros [?| ->%list_elem_of_singleton]%elem_of_app; done.
Qed.

Lemma asserted_set_event_queue q s :
  asserted reset_node pre s → asserted reset_node pre (set_event_queue q s).
Proof. done. Qed.

Lemma asserted_set_num_cycles c s :
  asserted reset_node pre s → asserted reset_node pre (set_num_cycles c s).
Proof. done. Qed.

Lemma asserted_run p s :
  respects (λ n, n ≠ reset_node) (λ r, r ≠ reset_node) p →
  asserted reset_node pre s → asserted reset_node pre (run p s).
Proof.
  apply (run_inv (asserted reset_node pre)).
  - intros. by apply asserted_set_value.
  - intros. by apply asserted_stage.
Qed.

Hypothesis body_ok :
  ∀ f, respects (λ n, n ≠ reset_node) (λ r, r ≠ reset_node) (body f).

Lemma asserted_call kind f s :
  asserted reset_node pre s → asserted reset_node pre (call body kind f s).
Proof. intros Hs. apply asserted_run; [done|]. by apply asserted_log. Qed.

Lemma asserted_drain fuel s s' :
  drain body fuel s = Some s' →
  asserted reset_node pre s → asserted reset_node pre s'.
Proof.
  revert s. induction fuel as [|fuel IH]; intros s;
    destruct (pop (event_queue s)) as [[q g]|] eqn:Hpop.
  - by rewrite (drain_out_of_fuel _ _ _ Hpop).
  - rewrite (drain_done _ _ Hpop). by intros [= <-].
  - rewrite (drain_step _ _ _ _ Hpop). intros Hd Hs.
    apply (IH _ Hd). by apply asserted_call.
  - rewrite (drain_done _ _ Hpop). by intros [= <-].
Qed.

Lemma asserted_posedge fns s :
  asserted reset_node pre s →
  asserted reset_node pre (foldl (λ s func, call body LPosedge func s) s fns).
Proof.
  revert s. induction fns as [|f fns IH]; intros s Hs; [done|].
  cbn [foldl]. apply IH. by apply asserted_call.
Qed.

Lemma asserted_commit_loop n s :
  asserted reset_node pre s → asserted reset_node pre (commit_loop n s).
Proof.
  revert s. induction n as [|n IH]; intros s Hs; [done|]. cbn.
  destruct (pop (rnode_callbacks s)) as [[rest reg]|] eqn:Hpop; [|done].
  apply pop_Some_inv in Hpop. apply IH.
  destruct Hs as (Hv & Hr & Hmid). rewrite Hpop in Hr.
  apply not_elem_of_app in Hr as [Hrest Hreg].
  apply asserted_set_value.
  - intros ->. apply Hreg. by left.
  - by apply asserted_log.
Qed.

Lemma asserted_cycle fuel s s' :
  clk ≠ reset_node →
  cycle body clk fuel s = Some s' →
  asserted reset_node pre s → asserted reset_node pre s'.
Proof.
  unfold cycle, eval_combinational. intros Hclk Hc Hs.
  apply bind_Some in Hc as (s1 & H1 & Hc).
  apply bind_Some in Hc as (s6 & H6 & [= <-]).
  apply asserted_set_num_cycles.
  eapply asserted_drain; [done|]. apply asserted_log.
  apply asserted_commit_loop. apply asserted_posedge.
  apply asserted_set_value; [done|]. apply asserted_log.
  apply asserted_set_value; [done|]. apply asserted_log.
  eapply asserted_drain; [done|]. by apply asserted_log.
Qed.

End ResetInvariant.

End WithBodies.

End TraceFacts.

(** With bodies that write only nodes nothing is registered for, every call
    of [reset] returns, given enough fuel. *)
Lemma reset_total body clk reset_node s :
  (∀ g, respects (λ n, vnode_callbacks s !! n = None) (λ _, True) (body g)) →
  ∃ fuel s', reset body clk reset_node fuel s = Some s'.
Proof.
  intros Hbody. unfold reset.
  set (s1 := kernel_write reset_node 1 s).
  assert (vnode_callbacks s1 = vnode_callbacks s) as E1
    by apply advance_kernel_write.
  destruct (cycle_total body clk s1) as (fuel1 & s2 & H2);
    [by rewrite E1|].
  assert (vnode_callbacks s2 = vnode_callbacks s) as E2.
  { apply cycle_shape in H2 as (_ & _ & _ & _ & _ & ->). done. }
  destruct (cycle_total body clk s2) as (fuel2 & s3 & H3);
    [by rewrite E2|].
  exists (fuel1 `max` fuel2). eexists.
  rewrite (cycle_more_fuel _ _ _ _ _ _ H2) by lia. cbn.
  rewrite (cycle_more_fuel _ _ _ _ _ _ H3) by lia. done.
Qed.




(** C3 (amended).  The event queue is first in, first out.  [add_event]
    pushes on the left end every function that is registered for the node and
    not pending, once; [eval_combinational] pops the right end until the
    queue is empty, so the functions pending at its entry are called in the
    order in which they were pushed, before any function pushed during the
    pass. *)
Theorem event_queue_fifo (body : nat → prog) (fuel : nat)
  (s s' : SimulationTool) :
  eval_combinational body fuel s = Some s' →
  (∀ n, ∃ new,
      event_queue (add_event n s) = new ++ event_queue s ∧ NoDup new ∧
      ∀ f, f ∈ new ↔
           (f ∉ event_queue s) ∧
           (∃ funcs, vnode_callbacks s !! n = Some funcs ∧ f ∈ funcs)) ∧
  (∃ T rest, labels (trace s') = labels (trace s) ++ LSettle :: T ∧
             comb_calls T = reverse (event_queue s) ++ rest) ∧
  event_queue s' = [].
Proof.
  unfold eval_combinational. intros Hd. split; [|split].
  - intros n. destruct (add_event_spec n s) as (new & Hs & Hnd & Hnew).
    exists new. split; [by rewrite Hs|]. split; [done|].
    intros f. split; [by apply Hnew|]. intros (Hq & funcs & Hfuncs & Hf).
    assert (f ∈ event_queue (add_event n s)) as Hin.
    { unfold add_event. rewrite Hfuncs. cbn. by apply add_funcs_pending. }
    rewrite Hs in Hin. cbn in Hin. by apply elem_of_app in Hin as [?|?].
  - destruct (drain_fifo _ _ _ _ Hd) as (T & rest & HT & Hcalls).
    exists T, rest. split; [|done]. rewrite HT. unfold labels. cbn.
    by rewrite fmap_app, <- app_assoc.
  - by eapply drain_empties.
Qed.

Lemma event_queue_fifo_witness :
  eval_combinational ex_body 10 ex_input_written = Some ex_settled ∧
  (∀ n, ∃ new,
      event_queue (add_event n ex_input_written)
      = new ++ event_queue ex_input_written ∧ NoDup new ∧
      ∀ f, f ∈ new ↔
           (f ∉ event_queue ex_input_written) ∧
           (∃ funcs, vnode_callbacks ex_input_written !! n = Some funcs ∧
                     f ∈ funcs)) ∧
  (∃ T rest, labels (trace ex_settled)
             = labels (trace ex_input_written) ++ LSettle :: T ∧
             comb_calls T = reverse (event_queue ex_input_written) ++ rest) ∧
  event_queue ex_settled = [].
Proof.
  assert (eval_combinational ex_body 10 ex_input_written = Some ex_settled)
    as H by (vm_compute; reflexivity).
  split; [exact H|].
  exact (event_queue_fifo ex_body 10 ex_input_written ex_settled H).
Defined.

(** C3 (as stated, refuted).  A write to the input pushes function 0 and then
    function 1: function 1, triggered last, is at the front of the queue.
    The settle calls function 0 first. *)
Lemma settle_calls_oldest_first :
  event_queue ex_input_written = [1; 0] ∧
  eval_combinational ex_body 10 ex_input_written = Some ex_settled ∧
  drop (length (trace ex_input_written)) (labels (trace ex_settled))
  = [LSettle; LComb 0; LComb 1].
Proof. vm_compute. repeat split. Qed.

(** C6.  Scheduling [f] twice (by [add_event] on two nodes, or twice on one
    node, that [f] is registered for) leaves one pending entry of [f], and
    the settle that follows calls [f] once, provided these are the only
    schedulings of [f]: no function called in the pass writes a node [f] is
    registered for.  The queue of a simulator holds no function twice
    ([construct_sim_NoDup], [set_value_NoDup], [cycle_empties]). *)
Theorem scheduled_twice_called_once (body : nat → prog)
  (f n1 n2 : nat) (funcs1 funcs2 : list nat) (fuel : nat)
  (s s' : SimulationTool) :
  NoDup (event_queue s) →
  vnode_callbacks s !! n1 = Some funcs1 → f ∈ funcs1 →
  vnode_callbacks s !! n2 = Some funcs2 → f ∈ funcs2 →
  (∀ g, respects (λ n, ∀ fs, vnode_callbacks s !! n = Some fs → f ∉ fs)
          (λ _, True) (body g)) →
  eval_combinational body fuel (add_event n2 (add_event n1 s)) = Some s' →
  count f (event_queue (add_event n2 (add_event n1 s))) = 1 ∧
  count (LComb f) (labels (trace s')) = count (LComb f) (labels (trace s)) + 1.
Proof.
  intros Hnd H1 Hf1 H2 Hf2 Hbody Hd.
  destruct (add_event_spec n1 s) as (new1 & E1 & _).
  destruct (add_event_spec n2 (add_event n1 s)) as (new2 & E2 & _).
  assert (count f (event_queue (add_event n2 (add_event n1 s))) = 1) as Hc.
  { apply count_NoDup; [by do 2 apply add_event_NoDup|].
    rewrite E2. cbn. apply elem_of_app. right.
    unfold add_event. rewrite H1. cbn. by apply add_funcs_pending. }
  split; [done|]. unfold eval_combinational in Hd.
  apply (drain_calls body f) in Hd.
  - rewrite Hd. cbn [event_queue log]. rewrite Hc.
    rewrite E2, E1. cbn [trace log set_event_queue]. unfold labels.
    rewrite fmap_app, count_app. cbn [fmap list_fmap ev_label].
    rewrite (count_cons_ne (LComb f) LSettle) by done. rewrite count_nil. lia.
  - rewrite E2, E1. done.
Qed.

Lemma scheduled_twice_called_once_witness :
  count 1 (event_queue (add_event 2 (add_event 2 ex_after_cycle))) = 1 ∧
  count (LComb 1) (labels (trace ex_scheduled_twice))
  = count (LComb 1) (labels (trace ex_after_cycle)) + 1.
Proof.
  assert (vnode_callbacks ex_after_cycle !! 3 = None) as Hcb
    by (vm_compute; reflexivity).
  apply (scheduled_twice_called_once ex_body 1 2 2 [0; 1] [0; 1] 10
           ex_after_cycle ex_scheduled_twice).
  - vm_compute. constructor.
  - vm_compute. reflexivity.
  - apply elem_of_cons. right. apply elem_of_cons. left. reflexivity.
  - vm_compute. reflexivity.
  - apply elem_of_cons. right. apply elem_of_cons. left. reflexivity.
  - intros [|[|[|g]]]; cbn [ex_body respects].
    + intros z. split; [|exact I]. intros fs Hfs.
      rewrite Hcb in Hfs. discriminate Hfs.
    + exact I.
    + intros z. split; exact I.
    + exact I.
  - vm_compute. reflexivity.
Defined.

(** C5.  [reset] writes 1 to the reset node, runs two cycles and writes 0.
    When no function of the model writes or stages the reset node, every
    event between the two writes (the commits of both cycles among them) sees
    the reset node at 1, the events in between are exactly those of two
    cycles, and after [reset] the node reads 0.  ([reset_total] gives the
    calls that return.) *)
Theorem reset_two_cycles (body : nat → prog) (clk reset_node fuel : nat)
  (s s' : SimulationTool) :
  is_Some (sim_nodes s !! reset_node) →
  clk ≠ reset_node →
  reset_node ∉ rnode_callbacks s →
  (∀ f, respects (λ n, n ≠ reset_node) (λ r, r ≠ reset_node) (body f)) →
  reset body clk reset_node fuel s = Some s' →
  ∃ e0 mid e1 C1 C2 rn,
    trace s' = trace s ++ e0 :: mid ++ [e1] ∧
    ev_label e0 = LSet reset_node 1 ∧
    ev_label e1 = LSet reset_node 0 ∧
    Forall (reset_high reset_node) (mid ++ [e1]) ∧
    labels mid = C1 ++ C2 ∧
    cycle_trace clk (posedge_clk_fns s) (rnode_callbacks s) C1 ∧
    cycle_trace clk (posedge_clk_fns s) rn C2 ∧
    node_value s' reset_node = 0%Z ∧
    num_cycles s' = (num_cycles s + 2)%Z.
Proof.
  intros Hnode Hclk Hrn Hbody Hr. unfold reset in Hr.
  apply bind_Some in Hr as (s2 & H2 & Hr).
  apply bind_Some in Hr as (s3 & H3 & [= <-]).
  set (s1 := kernel_write reset_node 1 s) in *.
  set (e0 := mkEvent (LSet reset_node 1) (sim_nodes s)).
  assert (trace s1 = trace s ++ [e0]) as Ht1.
  { unfold s1, kernel_write.
    by destruct (set_value_spec reset_node 1 (log (LSet reset_node 1) s))
      as (new & m & -> & _). }
  destruct (advance_kernel_write reset_node 1 s) as (_ & Hr1 & Hp1 & Hn1 & _).
  fold s1 in Hr1, Hp1, Hn1. rewrite app_nil_r in Hr1.
  assert (asserted reset_node (trace s ++ [e0]) s1) as A1.
  { split; [|split].
    - unfold s1, kernel_write.
      destruct (set_value_spec reset_node 1 (log (LSet reset_node 1) s))
        as (new & m & -> & _ & _ & _ & Hm).
      unfold node_value. cbn. by apply Hm.
    - by rewrite Hr1.
    - exists []. split; [by rewrite app_nil_r|constructor]. }
  pose proof (asserted_cycle body clk reset_node _ Hbody _ _ _ Hclk H2 A1) as A2.
  pose proof (asserted_cycle body clk reset_node _ Hbody _ _ _ Hclk H3 A2)
    as (Hv3 & Hr3 & mid & Hmid & Hall).
  apply cycle_shape in H2 as (C1 & L2 & T2 & N2 & P2 & _).
  apply cycle_shape in H3 as (C2 & L3 & T3 & N3 & P3 & _).
  destruct (set_value_spec reset_node 0 (log (LSet reset_node 0) s3))
    as (new & m & E & _ & _ & _ & Hm).
  fold (kernel_write reset_node 0 s3) in E.
  exists e0, mid, (mkEvent (LSet reset_node 0) (sim_nodes s3)), C1, C2,
    (rnode_callbacks s2).
  split; [|split; [|split; [|split; [|split; [|split; [|split; [|split]]]]]]].
  - rewrite E. cbn. rewrite Hmid. by rewrite <- !app_assoc.
  - done.
  - done.
  - apply Forall_app. split; [done|]. by repeat constructor.
  - rewrite L2, Ht1, Hmid in L3. unfold labels in L3.
    rewrite !fmap_app, <- !app_assoc in L3.
    by repeat apply app_inv_head in L3.
  - by rewrite <- Hp1, <- Hr1.
  - by rewrite <- Hp1, <- P2.
  - rewrite E. unfold node_value. cbn. apply Hm. cbn.
    by apply value_high_is_Some.
  - rewrite E. cbn. rewrite N3, N2, Hn1. lia.
Qed.

Lemma reset_two_cycles_witness :
  reset ex_body 0 1 10 ex_sim = Some ex_after_reset ∧
  ∃ e0 mid e1 C1 C2 rn,
    trace ex_after_reset = trace ex_sim ++ e0 :: mid ++ [e1] ∧
    ev_label e0 = LSet 1 1 ∧
    ev_label e1 = LSet 1 0 ∧
    Forall (reset_high 1) (mid ++ [e1]) ∧
    labels mid = C1 ++ C2 ∧
    cycle_trace 0 (posedge_clk_fns ex_sim) (rnode_callbacks ex_sim) C1 ∧
    cycle_trace 0 (posedge_clk_fns ex_sim) rn C2 ∧
    node_value ex_after_reset 1 = 0%Z ∧
    num_cycles ex_after_reset = (num_cycles ex_sim + 2)%Z.
Proof.
  assert (reset ex_body 0 1 10 ex_sim = Some ex_after_reset) as H
    by (vm_compute; reflexivity).
  split; [exact H|].
  apply (reset_two_cycles ex_body 0 1 10 ex_sim ex_after_reset).
  - vm_compute. eexists. reflexivity.
  - lia.
  - vm_compute. apply not_elem_of_nil.
  - intros [|[|[|g]]]; cbn [ex_body respects].
    + intros z. split; [lia|exact I].
    + exact I.
    + intros z. split; [lia|exact I].
    + exact I.
  - exact H.
Defined.

(** ** Part VII: further properties of ports, nodes and slices *)

(** X1.  [connect] to a port or to a slice of another width raises
    [AssertionError] (the assertion is the first statement of both
    branches, so nothing has been changed when it fails). *)
Theorem connect_width_mismatch (h : Heap) (a : nat) (A : VerilogPort)
  (tgt : target) (w : Z) :
  ports h !! a = Some A →
  target_width tgt h = Some w →
  p_width A ≠ w →
  connect a tgt h = inl AssertionError.
Proof.
  intros Ha Hw Hne. unfold connect. rewrite (get_port_Some _ _ _ Ha).
  cbn [res_bind]. destruct tgt as [v|v|sl|t]; cbn in Hw.
  - done.
  - done.
  - injection Hw as <-. by rewrite decide_False.
  - unfold get_port. destruct (ports h !! t) as [T|]; [|done].
    injection Hw as <-. cbn [res_bind]. by rewrite decide_False.
Qed.

Lemma connect_width_mismatch_witness :
  connect 0 (TPort 1) ex_two_widths = inl AssertionError.
Proof.
  apply (connect_width_mismatch ex_two_widths 0
           (mkPort (Some "input"%string) 8 "???" None [] None) (TPort 1) 4).
  - reflexivity.
  - reflexivity.
  - simpl. lia.
Defined.

Ltac heap_lookups :=
  repeat (cbn [res_bind ports nodes out p_value p_width p_type p_name p_parent
               p_connections fst snd fmap option_fmap option_map];
          rewrite ?list_lookup_insert_eq, ?list_lookup_insert_ne
            by (rewrite ?length_insert; first [lia|done])).

(** What [a.connect(b)] installs: [b]'s reference when it has one, a new node
    of value 0 otherwise; no existing node is touched and nothing is
    printed. *)
Lemma connect_ports_nodes (h : Heap) (a b : nat) (A B : VerilogPort) :
  ports h !! a = Some A → ports h !! b = Some B → p_width A = p_width B →
  ∃ h' r,
    connect a (TPort b) h = inr h' ∧
    p_value <$> ports h' !! a = Some (Some r) ∧
    p_value <$> ports h' !! b = Some (Some r) ∧
    out h' = out h ∧
    ((p_value B = Some r ∧ nodes h' = nodes h) ∨
     (p_value B = None ∧ r = AtNode (length (nodes h)) ∧
      nodes h' = nodes h ++ [mkValueNode false (p_width A) 0])).
Proof.
  intros Ha Hb Hw.
  pose proof (lookup_lt_Some _ _ _ Ha) as La.
  pose proof (lookup_lt_Some _ _ _ Hb) as Lb.
  unfold connect, add_connection, set_port_ref, get_port, new_ValueNode,
    put_port.
  destruct (p_value B) as [r|] eqn:HvB;
    (destruct (decide (a = b)) as [->|Hne];
     [assert (A = B) as -> by congruence|]);
    repeat (cbn [res_bind ports nodes out p_value p_width fst snd];
            rewrite ?Ha, ?Hb, ?HvB, ?decide_True, ?list_lookup_insert_eq,
              ?list_lookup_insert_ne by (rewrite ?length_insert; first [lia|done]));
    eexists _, _; (split; [reflexivity|]);
    heap_lookups; repeat split; auto.
Qed.

(** A write through a port that holds a node is read through every port that
    holds the same node. *)
Lemma shared_node_write_read (fuel fuel' : nat) (h : Heap) (p q n : nat)
  (P Q : VerilogPort) (nd : ValueNode) (v : Z) :
  ports h !! p = Some P → p_value P = Some (AtNode n) →
  ports h !! q = Some Q → p_value Q = Some (AtNode n) →
  nodes h !! n = Some nd →
  ∃ h', set_port_value (S fuel) p v h = inr h' ∧
        port_value (S fuel') q h' = inr (Some v).
Proof.
  intros Hp HvP Hq HvQ Hn. cbn [set_port_value].
  rewrite (get_port_Some _ _ _ Hp). cbn [res_bind]. rewrite HvP.
  unfold set_node_value, get_node. rewrite Hn. cbn [res_bind].
  eexists. split; [reflexivity|].
  cbn [port_value]. unfold get_port, get_node. cbn [ports print nodes].
  rewrite Hq. cbn [res_bind]. rewrite HvQ.
  rewrite list_lookup_insert_eq by (by eapply lookup_lt_Some). done.
Qed.

(** X2.  After [a.connect(b)] on two ports of equal width, where [b] has no
    node yet or has one, a value written to either port is read from both. *)
Theorem connect_then_write_read (h : Heap) (a b : nat) (A B : VerilogPort)
  (v : Z) :
  ports h !! a = Some A → ports h !! b = Some B → p_width A = p_width B →
  (p_value B = None ∨
   ∃ n, p_value B = Some (AtNode n) ∧ is_Some (nodes h !! n)) →
  ∃ h1,
    connect a (TPort b) h = inr h1 ∧
    ∀ x y, x ∈ [a; b] → y ∈ [a; b] →
      ∃ h2, set_port_value 1 x v h1 = inr h2 ∧
            port_value 1 y h2 = inr (Some v).
Proof.
  intros Ha Hb Hw HB.
  destruct (connect_ports_nodes h a b A B Ha Hb Hw)
    as (h1 & r & Hc & Hra & Hrb & _ & Hnodes).
  exists h1. split; [done|].
  assert (∃ n nd, r = AtNode n ∧ nodes h1 !! n = Some nd) as (n & nd & -> & Hn).
  { destruct Hnodes as [[Hr ->]|(HN & -> & ->)].
    - destruct HB as [HB|(n & HB & [nd Hnd])]; [congruence|].
      exists n, nd. split; [congruence|done].
    - eexists _, _. split; [done|]. apply lookup_new_node. }
  destruct (ports h1 !! a) as [A1|] eqn:Ha1; [|done].
  destruct (ports h1 !! b) as [B1|] eqn:Hb1; [|done].
  cbn in Hra, Hrb. injection Hra as Hra. injection Hrb as Hrb.
  intros x y Hx Hy.
  assert (∀ z, z ∈ [a; b] →
               ∃ Z, ports h1 !! z = Some Z ∧ p_value Z = Some (AtNode n)) as Hin.
  { intros z [->|[->|[]%elem_of_nil]%elem_of_cons]%elem_of_cons; eauto. }
  destruct (Hin x Hx) as (X & HX & HvX). destruct (Hin y Hy) as (Y & HY & HvY).
  by eapply shared_node_write_read.
Qed.

Lemma connect_then_write_read_witness :
  ∃ h1,
    connect 0 (TPort 1) ex_pair = inr h1 ∧
    ∀ x y, x ∈ [0; 1] → y ∈ [0; 1] →
      ∃ h2, set_port_value 1 x 9 h1 = inr h2 ∧
            port_value 1 y h2 = inr (Some 9%Z).
Proof.
  apply (connect_then_write_read ex_pair 0 1
           (mkPort (Some "input"%string) 8 "???" None [] None)
           (mkPort (Some "input"%string) 8 "???" None [] None) 9).
  - reflexivity.
  - reflexivity.
  - reflexivity.
  - left. reflexivity.
Defined.

(** [(x & (1 << i)) >> i] is bit [i] of [x]. *)
Lemma extract_bit (x i : Z) :
  (0 ≤ i)%Z →
  Z.shiftr (Z.land x (Z.shiftl 1 i)) i = Z.b2z (Z.testbit x i).
Proof.
  intros Hi. apply Z.bits_inj'. intros k Hk.
  rewrite Z.shiftr_spec, Z.land_spec, Z.shiftl_spec by lia.
  replace (k + i - i)%Z with k by lia.
  destruct (decide (k = 0%Z)) as [->|Hne].
  - rewrite Z.add_0_l, Z.bit0_odd. cbn. rewrite andb_true_r.
    by destruct (Z.testbit x i).
  - rewrite (Z.bits_above_log2 1 k) by (cbn; lia). rewrite andb_false_r.
    destruct (Z.testbit x i); cbn.
    + rewrite (Z.bits_above_log2 1 k) by (cbn; lia). done.
    + by rewrite Z.bits_0.
Qed.

(** The bits of [x | (b << i)] for a bit value [b]. *)
Lemma or_bit (x b i j : Z) :
  (0 ≤ i)%Z → (0 ≤ j)%Z → (0 ≤ b ≤ 1)%Z →
  Z.testbit (Z.lor x (Z.shiftl b i)) j =
  if decide (j = i) then Z.testbit x i || bool_decide (b = 1%Z)
  else Z.testbit x j.
Proof.
  intros Hi Hj Hb. rewrite Z.lor_spec, Z.shiftl_spec by lia.
  case_decide as Hji.
  - subst j. rewrite Z.sub_diag, Z.bit0_odd. f_equal.
    assert (b = 0 ∨ b = 1)%Z as [->| ->] by lia; done.
  - destruct (decide (j < i)%Z).
    + rewrite (Z.testbit_neg_r b) by lia. by rewrite orb_false_r.
    + assert (b = 0 ∨ b = 1)%Z as [->| ->] by lia.
      * by rewrite Z.bits_0, orb_false_r.
      * rewrite (Z.bits_above_log2 1) by (cbn; lia). by rewrite orb_false_r.
Qed.

(** X3.  Reading the slice [p[i]] of a port that holds a node returns bit [i]
    of the node's value, as 0 or 1. *)
Theorem slice_read_is_bit (fuel : nat) (h : Heap) (p n : nat)
  (P : VerilogPort) (nd : ValueNode) (i : Z) :
  ports h !! p = Some P → p_value P = Some (AtNode n) →
  nodes h !! n = Some nd → (0 ≤ i)%Z →
  slice_value (S fuel) (getitem p i) h
  = inr (Some (Z.b2z (Z.testbit (vn_value nd) i))).
Proof.
  intros Hp Hv Hn Hi. unfold slice_value. cbn [getitem parent_ptr sl_addr].
  rewrite (port_value_node _ _ _ _ _ _ Hp Hv Hn). cbn [res_bind].
  unfold slice_bits. destruct (Z.ltb_spec i 0) as [|_]; [lia|].
  by rewrite extract_bit.
Qed.

Lemma slice_read_is_bit_witness :
  slice_value 1 (getitem 0 2) ex_const5 = inr (Some 1%Z).
Proof.
  apply (slice_read_is_bit 0 ex_const5 0 0
           (mkPort (Some "input"%string) 8 "???" None
              [EConstant (mkConstant 5 8)] (Some (AtNode 0)))
           (mkValueNode false 8 5) 2).
  - reflexivity.
  - reflexivity.
  - reflexivity.
  - lia.
Defined.

(** X4.  Writing a bit value [b] to the slice [p[i]] of a port that holds a
    node sets bit [i] of the node to the or of its old value and [b], and
    leaves every other bit as it was; the slice then reads that bit.  So a 1
    is always read back, and a 0 is read back when the bit was clear. *)
Theorem slice_write_sets_bit (fuel fuel' : nat) (h : Heap) (p n : nat)
  (P : VerilogPort) (nd : ValueNode) (i b : Z) :
  ports h !! p = Some P → p_value P = Some (AtNode n) →
  nodes h !! n = Some nd → (0 ≤ i)%Z → (0 ≤ b ≤ 1)%Z →
  ∃ h' nd',
    set_slice_value (S fuel) (getitem p i) b h = inr h' ∧
    nodes h' !! n = Some nd' ∧
    (∀ j, (0 ≤ j)%Z →
          Z.testbit (vn_value nd') j =
          if decide (j = i)
          then Z.testbit (vn_value nd) i || bool_decide (b = 1%Z)
          else Z.testbit (vn_value nd) j) ∧
    slice_value (S fuel') (getitem p i) h'
    = inr (Some (Z.b2z (Z.testbit (vn_value nd) i || bool_decide (b = 1%Z)))).
Proof.
  intros Hp Hv Hn Hi Hb.
  destruct (slice_write_or fuel h p P n nd i b Hp Hv Hn Hi)
    as (h' & Hset & Hports & Hnodes).
  assert (nodes h' !! n =
          Some (mkValueNode (vn_sim nd) (vn_width nd)
                  (Z.lor (vn_value nd) (Z.shiftl b i)))) as Hn'.
  { rewrite Hnodes. apply list_lookup_insert_eq. by eapply lookup_lt_Some. }
  eexists h', _. split; [done|]. split; [done|]. split.
  - intros j Hj. cbn [vn_value]. by apply or_bit.
  - rewrite <- Hports in Hp.
    rewrite (slice_read_is_bit fuel' h' p n P _ i Hp Hv Hn' Hi).
    cbn [vn_value]. rewrite (or_bit _ b i i) by lia.
    by rewrite decide_True.
Qed.

Lemma slice_write_sets_bit_witness :
  ∃ h' nd',
    set_slice_value 1 (getitem 0 1) 1 ex_const5 = inr h' ∧
    nodes h' !! 0 = Some nd' ∧
    (∀ j, (0 ≤ j)%Z →
          Z.testbit (vn_value nd') j =
          if decide (j = 1%Z)
          then Z.testbit 5 1 || bool_decide (1 = 1)%Z
          else Z.testbit 5 j) ∧
    slice_value 1 (getitem 0 1) h'
    = inr (Some (Z.b2z (Z.testbit 5 1 || bool_decide (1 = 1)%Z))).
Proof.
  apply (slice_write_sets_bit 0 0 ex_const5 0 0
           (mkPort (Some "input"%string) 8 "???" None
              [EConstant (mkConstant 5 8)] (Some (AtNode 0)))
           (mkValueNode false 8 5) 1 1).
  - reflexivity.
  - reflexivity.
  - reflexivity.
  - lia.
  - lia.
Defined.

(** X5.  Through a slice, a port that has no node can be neither read nor
    written: both raise [TypeError] ([None] meets [&] and [|]).  A negative
    bit index raises [ValueError] (negative shift count) first, whether the
    port has a node or not. *)
Theorem slice_access_errors (fuel : nat) (h : Heap) (p : nat)
  (P : VerilogPort) (i b : Z) :
  ports h !! p = Some P →
  (p_value P = None ∨
   ∃ n, p_value P = Some (AtNode n) ∧ is_Some (nodes h !! n)) →
  ((i < 0)%Z ∨ p_value P = None) →
  let e := if decide (i < 0)%Z then ValueError else TypeError in
  slice_value (S fuel) (getitem p i) h = inl e ∧
  set_slice_value (S fuel) (getitem p i) b h = inl e.
Proof.
  intros Hp HP Hcase. unfold slice_value, set_slice_value.
  cbn [getitem parent_ptr sl_addr].
  assert (∃ pv, port_value (S fuel) p h = inr pv ∧
                (pv = None ∨ (i < 0)%Z)) as (pv & -> & Hpv).
  { destruct HP as [Hv|(n & Hv & [nd Hn])].
    - rewrite (port_value_None _ _ _ _ Hp Hv). eauto.
    - rewrite (port_value_node _ _ _ _ _ _ Hp Hv Hn).
      destruct Hcase; [eauto|congruence]. }
  cbn [res_bind]. unfold slice_bits, slice_or.
  destruct (Z.ltb_spec i 0) as [|].
  - by rewrite decide_True.
  - rewrite decide_False by lia. destruct Hpv as [->|]; [done|lia].
Qed.

Lemma slice_access_errors_witness :
  slice_value 1 (getitem 0 3) ex_pair = inl TypeError ∧
  set_slice_value 1 (getitem 0 3) 1 ex_pair = inl TypeError.
Proof.
  apply (slice_access_errors 0 ex_pair 0
           (mkPort (Some "input"%string) 8 "???" None [] None) 3 1).
  - reflexivity.
  - left. reflexivity.
  - right. reflexivity.
Defined.

Lemma res_bind_inr {A B : Type} (m : res A) (k : A → res B) (y : B) :
  res_bind m k = inr y → ∃ x, m = inr x ∧ k x = inr y.
Proof. destruct m as [e|x]; [done|]. cbn. eauto. Qed.

Lemma get_port_inr (p : nat) (h : Heap) (P : VerilogPort) :
  get_port p h = inr P → ports h !! p = Some P.
Proof. unfold get_port. destruct (ports h !! p); [|done]. by intros [= ->]. Qed.

(** X6.  A one-bit port connected to the slice [b[i]] of a port that holds a
    node reads bit [i] of that node, and writing 1 to it or-s bit [i] into
    the node. *)
Theorem connect_slice_reads_bit (fuel : nat) (h : Heap) (a b n : nat)
  (A B : VerilogPort) (nd : ValueNode) (i : Z) :
  ports h !! a = Some A → ports h !! b = Some B → a ≠ b →
  p_width A = 1%Z →
  p_value B = Some (AtNode n) → nodes h !! n = Some nd → (0 ≤ i)%Z →
  ∃ h1 h2,
    connect a (TSlice (getitem b i)) h = inr h1 ∧
    nodes h1 = nodes h ∧
    port_value (S (S fuel)) a h1
    = inr (Some (Z.b2z (Z.testbit (vn_value nd) i))) ∧
    set_port_value (S (S fuel)) a 1 h1 = inr h2 ∧
    vn_value <$> nodes h2 !! n
    = Some (Z.lor (vn_value nd) (Z.shiftl 1 i)).
Proof.
  intros Ha Hb Hne Hw HvB Hn Hi.
  pose proof (lookup_lt_Some _ _ _ Ha) as La.
  pose proof (lookup_lt_Some _ _ _ Hb) as Lb.
  pose proof (lookup_lt_Some _ _ _ Hn) as Ln.
  unfold connect, add_connection, set_port_ref, get_port, put_port.
  cbn [getitem parent_ptr sl_width sl_addr].
  repeat (cbn [res_bind ports nodes out p_value p_width fst snd];
          rewrite ?Ha, ?Hb, ?HvB, ?Hw, ?decide_True, ?list_lookup_insert_eq,
            ?list_lookup_insert_ne by (rewrite ?length_insert; first [lia|done])).
  assert ((i <? 0)%Z = false) as Hlt by (apply Z.ltb_ge; lia).
  eexists _, _. split; [reflexivity|]. split; [reflexivity|].
  split; [|split].
  - cbn [port_value]. unfold get_port, get_node, slice_bits.
    repeat (cbn [res_bind ports nodes out p_value p_width fst snd parent_ptr
                 sl_addr print getitem];
            rewrite ?Hn, ?HvB, ?Hlt, ?list_lookup_insert_eq,
              ?list_lookup_insert_ne
              by (rewrite ?length_insert; first [lia|done])).
    by rewrite extract_bit.
  - cbn [port_value set_port_value].
    unfold get_port, get_node, set_node_value, get_node, slice_or.
    repeat (cbn [res_bind ports nodes out p_value p_width fst snd parent_ptr
                 sl_addr print getitem];
            rewrite ?Hn, ?HvB, ?Hlt, ?list_lookup_insert_eq,
              ?list_lookup_insert_ne
              by (rewrite ?length_insert; first [lia|done])).
    reflexivity.
  - cbn [nodes]. by rewrite list_lookup_insert_eq.
Qed.

Lemma connect_slice_reads_bit_witness :
  ∃ h1 h2,
    connect 0 (TSlice (getitem 1 2)) ex_bit_and_byte = inr h1 ∧
    nodes h1 = nodes ex_bit_and_byte ∧
    port_value 2 0 h1 = inr (Some (Z.b2z (Z.testbit 5 2))) ∧
    set_port_value 2 0 1 h1 = inr h2 ∧
    vn_value <$> nodes h2 !! 0 = Some (Z.lor 5 (Z.shiftl 1 2)).
Proof.
  apply (connect_slice_reads_bit 0 ex_bit_and_byte 0 1 0
           (mkPort (Some "input"%string) 1 "???" None [] None)
           (mkPort (Some "input"%string) 8 "???" None
              [EConstant (mkConstant 5 8)] (Some (AtNode 0)))
           (mkValueNode false 8 5) 2).
  - reflexivity.
  - reflexivity.
  - lia.
  - reflexivity.
  - reflexivity.
  - reflexivity.
  - lia.
Defined.

(** X7.  Ports whose [_value]s are slices of one another (a loop of slice
    connections) can be neither read nor written: the getters call each
    other until the interpreter's recursion limit, whatever it is. *)
Theorem slice_loop_unreadable (h : Heap) (C : nat → Prop) :
  (∀ p, C p → ∃ P sl, ports h !! p = Some P ∧
                      p_value P = Some (AtSlice sl) ∧ C (parent_ptr sl)) →
  ∀ fuel p v, C p →
    port_value fuel p h = inl RuntimeError ∧
    set_port_value fuel p v h = inl RuntimeError.
Proof.
  intros Hloop fuel. induction fuel as [|fuel IH]; intros p v Hp; [done|].
  destruct (Hloop p Hp) as (P & sl & HP & Hv & Hsl).
  cbn [port_value set_port_value]. rewrite (get_port_Some _ _ _ HP).
  cbn [res_bind]. rewrite Hv.
  destruct (IH (parent_ptr sl) v Hsl) as [-> _]. done.
Qed.

Lemma slice_loop_unreadable_witness :
  (∃ P sl, ports ex_slice_loop !! 0 = Some P ∧
           p_value P = Some (AtSlice sl) ∧ parent_ptr sl = 1) ∧
  (∃ P sl, ports ex_slice_loop !! 1 = Some P ∧
           p_value P = Some (AtSlice sl) ∧ parent_ptr sl = 0) ∧
  port_value 1000 0 ex_slice_loop = inl RuntimeError ∧
  set_port_value 1000 1 7 ex_slice_loop = inl RuntimeError.
Proof.
  assert (H0 : ∃ P sl, ports ex_slice_loop !! 0 = Some P ∧
                       p_value P = Some (AtSlice sl) ∧ parent_ptr sl = 1)
    by (eexists _, _; split; [reflexivity|]; split; reflexivity).
  assert (H1 : ∃ P sl, ports ex_slice_loop !! 1 = Some P ∧
                       p_value P = Some (AtSlice sl) ∧ parent_ptr sl = 0)
    by (eexists _, _; split; [reflexivity|]; split; reflexivity).
  assert (Hloop : ∀ p, p < 2 → ∃ P sl, ports ex_slice_loop !! p = Some P ∧
                    p_value P = Some (AtSlice sl) ∧ parent_ptr sl < 2).
  { intros [|[|p]] Hp; [| |lia].
    - destruct H0 as (P & sl & ? & ? & Hs). exists P, sl. rewrite Hs. repeat split; [done..|lia].
    - destruct H1 as (P & sl & ? & ? & Hs). exists P, sl. rewrite Hs. repeat split; [done..|lia]. }
  split; [exact H0|]. split; [exact H1|]. split.
  - apply (slice_loop_unreadable ex_slice_loop (λ p, p < 2) Hloop 1000 0 0). lia.
  - apply (slice_loop_unreadable ex_slice_loop (λ p, p < 2) Hloop 1000 1 7). lia.
Defined.

Section Frame.

Implicit Types (h : Heap) (T : list nat).

Lemma same_static_refl P : same_static P P.
Proof. by repeat split. Qed.

Lemma heap_frame_refl T h : heap_frame T h h.
Proof.
  repeat split; [done|]. intros q Q HQ. exists Q.
  split; [done|]. split; [apply same_static_refl|]. done.
Qed.

Lemma heap_frame_trans T h1 h2 h3 :
  heap_frame T h1 h2 → heap_frame T h2 h3 → heap_frame T h1 h3.
Proof.
  intros (O1 & N1 & L1 & P1) (O2 & N2 & L2 & P2).
  split; [congruence|]. split; [by etrans|]. split; [congruence|].
  intros q Q HQ. destruct (P1 q Q HQ) as (Q1 & HQ1 & (S1 & S2 & S3 & S4) & C1 & F1).
  destruct (P2 q Q1 HQ1) as (Q2 & HQ2 & (R1 & R2 & R3 & R4) & C2 & F2).
  exists Q2. split; [done|]. split; [repeat split; congruence|].
  split; [by etrans|]. intros Hq. rewrite F2, F1; done.
Qed.

Lemma heap_frame_put T h p P P' :
  ports h !! p = Some P → p ∈ T → same_static P P' →
  p_connections P `prefix_of` p_connections P' →
  heap_frame T h (put_port p P' h).
Proof.
  intros HP Hp Hs Hc. split; [done|]. split; [done|].
  split; [apply length_insert|]. intros q Q HQ. cbn [ports put_port].
  destruct (decide (q = p)) as [->|Hne].
  - exists P'. rewrite list_lookup_insert_eq by (by eapply lookup_lt_Some).
    assert (Q = P) as -> by congruence. done.
  - exists Q. rewrite list_lookup_insert_ne by done.
    split; [done|]. split; [apply same_static_refl|]. done.
Qed.

Lemma heap_frame_add_connection T h h' p e :
  p ∈ T → add_connection p e h = inr h' → heap_frame T h h'.
Proof.
  intros Hp. unfold add_connection. intros (P & HP%get_port_inr & [= <-])%res_bind_inr.
  eapply heap_frame_put; [done|done|by repeat split|].
  by apply prefix_app_r.
Qed.

Lemma heap_frame_set_port_ref T h h' p r :
  p ∈ T → set_port_ref p r h = inr h' → heap_frame T h h'.
Proof.
  intros Hp. unfold set_port_ref. intros (P & HP%get_port_inr & [= <-])%res_bind_inr.
  eapply heap_frame_put; [done|done|by repeat split|done].
Qed.

Lemma heap_frame_new_ValueNode T h w v :
  heap_frame T h (new_ValueNode w v h).2.
Proof.
  split; [done|]. split; [by apply prefix_app_r|]. split; [done|].
  intros q Q HQ. exists Q. split; [done|]. split; [apply same_static_refl|]. done.
Qed.

End Frame.

(** X8.  A call of [connect] that returns has printed nothing, has written
    or removed no node (it can only add one), and has kept every port's
    type, width, name and parent; connection lists only grow, and only the
    port itself and the port of the target change at all. *)
Theorem connect_frame (h h' : Heap) (a : nat) (tgt : target) :
  connect a tgt h = inr h' →
  heap_frame (a :: option_list (target_port tgt)) h h'.
Proof.
  unfold connect. intros (A & HA & Hc)%res_bind_inr.
  destruct tgt as [v|v|sl|t]; cbn [target_port] in *.
  - change (option_list None) with (@nil nat).
    assert (a ∈ [a]) as Ha by by left.
    apply res_bind_inr in Hc as (h1 & H1 & Hc).
    unfold new_ValueNode in Hc. cbv beta iota in Hc.
    eapply heap_frame_trans; [exact (heap_frame_add_connection _ _ _ _ _ Ha H1)|].
    eapply heap_frame_trans; [apply (heap_frame_new_ValueNode _ _ (p_width A) v)|].
    exact (heap_frame_set_port_ref _ _ _ _ _ Ha Hc).
  - discriminate Hc.
  - change (option_list (Some (parent_ptr sl))) with [parent_ptr sl].
    assert (a ∈ [a; parent_ptr sl]) as Ha by by left.
    assert (parent_ptr sl ∈ [a; parent_ptr sl]) as Hsl by (right; by left).
    case_decide; [|done].
    apply res_bind_inr in Hc as (h1 & H1 & Hc).
    apply res_bind_inr in Hc as (h2 & H2 & Hc).
    apply res_bind_inr in Hc as (T & HT & Hc).
    eapply heap_frame_trans; [exact (heap_frame_add_connection _ _ _ _ _ Ha H1)|].
    eapply heap_frame_trans; [exact (heap_frame_add_connection _ _ _ _ _ Hsl H2)|].
    destruct (p_value T).
    + exact (heap_frame_set_port_ref _ _ _ _ _ Ha Hc).
    + apply res_bind_inr in Hc as (h3 & H3 & Hc).
      apply res_bind_inr in Hc as (T' & HT' & Hc).
      unfold new_ValueNode in Hc. cbv beta iota in Hc.
      eapply heap_frame_trans; [exact (heap_frame_set_port_ref _ _ _ _ _ Ha H3)|].
      eapply heap_frame_trans;
        [apply (heap_frame_new_ValueNode _ _ (p_width T') 0)|].
      exact (heap_frame_set_port_ref _ _ _ _ _ Hsl Hc).
  - change (option_list (Some t)) with [t].
    assert (a ∈ [a; t]) as Ha by by left.
    assert (t ∈ [a; t]) as Ht by (right; by left).
    apply res_bind_inr in Hc as (T & HT & Hc).
    case_decide; [|done].
    apply res_bind_inr in Hc as (h1 & H1 & Hc).
    apply res_bind_inr in Hc as (h2 & H2 & Hc).
    apply res_bind_inr in Hc as (T2 & HT2 & Hc).
    eapply heap_frame_trans; [exact (heap_frame_add_connection _ _ _ _ _ Ha H1)|].
    eapply heap_frame_trans; [exact (heap_frame_add_connection _ _ _ _ _ Ht H2)|].
    destruct (p_value T2).
    + exact (heap_frame_set_port_ref _ _ _ _ _ Ha Hc).
    + apply res_bind_inr in Hc as (S2 & HS2 & Hc).
      unfold new_ValueNode in Hc. cbv beta iota in Hc.
      apply res_bind_inr in Hc as (h4 & H4 & Hc).
      eapply heap_frame_trans;
        [apply (heap_frame_new_ValueNode _ _ (p_width S2) 0)|].
      eapply heap_frame_trans;
        [exact (heap_frame_set_port_ref _ _ _ _ _ Ha H4)|].
      exact (heap_frame_set_port_ref _ _ _ _ _ Ht Hc).
Qed.

Lemma connect_frame_witness :
  connect 0 (TPort 1) ex_pair = inr ex_pair_connected ∧
  heap_frame [0; 1] ex_pair ex_pair_connected.
Proof.
  assert (connect 0 (TPort 1) ex_pair = inr ex_pair_connected) as H
    by reflexivity.
  split; [exact H|]. exact (connect_frame _ _ 0 (TPort 1) H).
Defined.

(** ** Part VIII: further properties of elaboration *)

Lemma elaborate_links_mutual :
  (∀ o t nm,
     Forall (λ p, p_parent p = Some t) (check_type t nm o).1.2 ∧
     Forall (λ sm, m_parent sm = Some t ∧ m_type sm = Some (m_class sm) ∧
                   is_Some (m_name sm)) (check_type t nm o).2) ∧
  (∀ l t nm i,
     Forall (λ p, p_parent p = Some t) (check_items t nm i l).1.2 ∧
     Forall (λ sm, m_parent sm = Some t ∧ m_type sm = Some (m_class sm) ∧
                   is_Some (m_name sm)) (check_items t nm i l).2) ∧
  (∀ d t,
     Forall (λ p, p_parent p = Some t) (elaborate_dict t d).1.2 ∧
     Forall (λ sm, m_parent sm = Some t ∧ m_type sm = Some (m_class sm) ∧
                   is_Some (m_name sm)) (elaborate_dict t d).2) ∧
  (∀ m : VerilogModule, True).
Proof.
  apply hierarchy_ind.
  - intros p t nm. cbn. split; by repeat constructor.
  - intros m _ t nm. cbn. split; [constructor|].
    constructor; [|constructor]. destruct m as [c ty cn pa n w ps ms d]. cbn.
    destruct (elaborate_dict nm d) as [[d' ps'] ms']. cbn. eauto.
  - intros l IH t nm. cbn [check_type]. specialize (IH t nm 0).
    by destruct (check_items t nm 0 l) as [[l1 ps1] ms1].
  - intros t nm. cbn. split; constructor.
  - intros t nm i. cbn. split; constructor.
  - intros o IHo l IHl t nm i. cbn [check_items].
    specialize (IHo t (item_name nm i)). specialize (IHl t nm (S i)).
    destruct (check_type t (item_name nm i) o) as [[o1 ps1] ms1].
    destruct (check_items t nm (S i) l) as [[l1 ps2] ms2]. cbn in *.
    destruct IHo, IHl. split; by apply Forall_app.
  - intros t. cbn. split; constructor.
  - intros nm o IHo d IHd t. cbn [elaborate_dict].
    specialize (IHo t nm). specialize (IHd t).
    destruct (elaborate_dict t d) as [[d1 ps2] ms2].
    destruct (classified nm).
    + destruct (check_type t nm o) as [[o1 ps1] ms1]. cbn in *.
      destruct IHo, IHd. split; by apply Forall_app.
    + cbn in *. done.
  - done.
Qed.

(** X9.  After [elaborate(iname)], the module carries the name [iname] and
    no parent; every port in its [ports] list has the module as parent, and
    every module in its [submodules] list has the module as parent, its class
    name as type, and a name. *)
Theorem elaborate_links (iname : string) (m : VerilogModule) :
  let m' := elaborate iname m in
  m_name m' = Some iname ∧ m_parent m' = None ∧
  Forall (λ p, p_parent p = Some iname) (m_ports m') ∧
  Forall (λ sm, m_parent sm = Some iname ∧ m_type sm = Some (m_class sm) ∧
                is_Some (m_name sm)) (m_submodules m').
Proof.
  destruct elaborate_links_mutual as (_ & _ & Hd & _).
  destruct m as [c ty cn pa n w ps ms d]. cbn.
  specialize (Hd d iname).
  destruct (elaborate_dict iname d) as [[d' ps'] ms']. cbn in *.
  by destruct Hd.
Qed.

Lemma check_items_ports (t nm : string) (i : nat) (ps : list VerilogPort) :
  let named := imap (λ k p, name_port t (item_name nm (i + k)) p) ps in
  check_items t nm i (objs_of_ports ps) = (objs_of_ports named, named, []).
Proof.
  revert i. induction ps as [|p ps IH]; intros i; [done|].
  cbn [objs_of_ports foldr check_items check_type].
  fold (objs_of_ports ps). rewrite (IH (S i)). cbn. rewrite Nat.add_0_r.
  assert (imap (λ k p0, name_port t (item_name nm (S (i + k))) p0) ps
          = imap ((λ k p0, name_port t (item_name nm (i + k)) p0) ∘ S) ps) as ->.
  { apply imap_ext. intros k x _. cbn. by rewrite Nat.add_succ_r. }
  done.
Qed.

Lemma named_ports_names (t nm : string) (i : nat) (ps : list VerilogPort) :
  p_name <$> imap (λ k p, name_port t (item_name nm (i + k)) p) ps
  = item_name nm <$> seq i (length ps).
Proof.
  revert i. induction ps as [|p ps IH]; intros i; [done|].
  rewrite imap_cons. cbn. rewrite Nat.add_0_r. f_equal. rewrite <- IH.
  f_equal. apply imap_ext. intros k x _. cbn. by rewrite Nat.add_succ_r.
Qed.

Lemma named_ports_widths (t nm : string) (i : nat) (ps : list VerilogPort) :
  p_width <$> imap (λ k p, name_port t (item_name nm (i + k)) p) ps
  = p_width <$> ps.
Proof.
  revert i. induction ps as [|p ps IH]; intros i; [done|].
  rewrite imap_cons. cbn. f_equal. rewrite <- (IH (S i)).
  f_equal. apply imap_ext. intros k x _. cbn. by rewrite Nat.add_succ_r.
Qed.

Lemma named_ports_parent (t nm : string) (i : nat) (ps : list VerilogPort) :
  Forall (λ p, p_parent p = Some t)
    (imap (λ k p, name_port t (item_name nm (i + k)) p) ps).
Proof.
  revert i. induction ps as [|p ps IH]; intros i; [constructor|].
  rewrite imap_cons. constructor; [done|].
  rewrite (imap_ext _ (λ k p0, name_port t (item_name nm (S i + k)) p0))
    by (intros; unfold compose; do 2 f_equal; lia). apply IH.
Qed.

Lemma item_name_inj (nm : string) : Inj (=) (=) (item_name nm).
Proof.
  intros i j H. unfold item_name in H.
  apply (inj (String.append nm)) in H.
  apply (inj (String.append "_")) in H.
  by apply (inj pretty) in H.
Qed.

(** X10.  A list attribute [name] whose items are ports contributes its
    ports in the order of the list, item [k] under the name [name_k]: the
    names are pairwise distinct, the widths are those of the items, and no
    submodule is listed. *)
Theorem list_attribute_names (t nm : string) (ps : list VerilogPort) :
  let listed := (check_type t nm (OList (objs_of_ports ps))).1.2 in
  p_name <$> listed = item_name nm <$> seq 0 (length ps) ∧
  NoDup (p_name <$> listed) ∧
  p_width <$> listed = p_width <$> ps ∧
  Forall (λ p, p_parent p = Some t) listed ∧
  (check_type t nm (OList (objs_of_ports ps))).2 = [].
Proof.
  cbn [check_type]. rewrite (check_items_ports t nm 0 ps). cbn [fst snd].
  rewrite (named_ports_names t nm 0), (named_ports_widths t nm 0).
  split; [done|]. split; [|split; [done|split; [|done]]].
  - apply NoDup_fmap_2; [apply item_name_inj|apply NoDup_seq].
  - apply named_ports_parent.
Qed.

(** ** Part IX: further properties of the simulator *)

Section Construction.

Implicit Types (s : SimulationTool) (f g n : nat) (sens : list nat).

Lemma register_comb_spec f sens s :
  let s' := register_comb f sens s in
  (∀ g, g ∈ event_queue s' ↔ g ∈ event_queue s ∨ (g = f ∧ sens ≠ [])) ∧
  (∀ n g, registered s' n g ↔ registered s n g ∨ (g = f ∧ n ∈ sens)) ∧
  (NoDup (event_queue s) → NoDup (event_queue s')) ∧
  posedge_clk_fns s' = posedge_clk_fns s ∧
  sim_nodes s' = sim_nodes s ∧
  rnode_callbacks s' = rnode_callbacks s ∧
  num_cycles s' = num_cycles s ∧
  trace s' = trace s.
Proof.
  unfold register_comb. revert s. induction sens as [|v sens IH]; intros s.
  - cbn. split; [|split; [|done]].
    + intros g. split; [by left|]. intros [?|[_ ?]]; done.
    + intros n g. split; [by left|]. intros [?|[_ []%elem_of_nil]]. done.
  - cbn [foldl].
    set (s1 := set_vnode_callbacks
                 (<[v:=default [] (vnode_callbacks s !! v) ++ [f]]>
                    (vnode_callbacks s)) s).
    set (s2 := if decide (f ∈ event_queue s1) then s1
               else set_event_queue (appendleft f (event_queue s1)) s1).
    destruct (IH s2) as (Hq & Hr & Hnd & Hp & Hn & Hrn & Hc & Ht).
    assert (∀ g, g ∈ event_queue s2 ↔ g ∈ event_queue s ∨ g = f) as Hq2.
    { intros g. unfold s2. case_decide as Hf; cbn in *.
      - split; [by left|]. intros [?| ->]; done.
      - unfold appendleft. rewrite elem_of_cons. tauto. }
    assert (∀ n g, registered s2 n g ↔ registered s n g ∨ (g = f ∧ n = v))
      as Hr2.
    { intros n g.
      assert (registered s2 n g ↔ registered s1 n g) as ->
        by (unfold s2, registered; by case_decide).
      unfold registered, s1. cbn.
      destruct (decide (n = v)) as [->|Hne].
      - rewrite lookup_insert_eq. split.
        + intros (fs & [= <-] & [Hg| ->%list_elem_of_singleton]%elem_of_app);
            [|by right].
          left. destruct (vnode_callbacks s !! v) as [fs|]; [eauto|].
          by apply elem_of_nil in Hg.
        + intros [(fs & Hfs & Hg)|[-> _]]; eexists; (split; [done|]).
          * rewrite Hfs. apply elem_of_app. by left.
          * apply elem_of_app. right. by left.
      - rewrite lookup_insert_ne by done.
        split; [by left|]. intros [?|[_ ?]]; done. }
    split; [|split; [|split; [|by rewrite Hp, Hn, Hrn, Hc, Ht; unfold s2;
                                  case_decide]]].
    + intros g. rewrite Hq, Hq2. assert (v :: sens ≠ []) by done. tauto.
    + intros n g. rewrite Hr, Hr2, elem_of_cons. tauto.
    + intros Hs. apply Hnd. unfold s2. case_decide; cbn; [done|].
      apply NoDup_cons. by split.
Qed.

Lemma register_all_spec (newsenses : list (nat * list nat)) s :
  let s' := foldl (λ s e, register_comb e.1 e.2 s) s newsenses in
  (∀ g, g ∈ event_queue s' ↔
        g ∈ event_queue s ∨ ∃ sens, (g, sens) ∈ newsenses ∧ sens ≠ []) ∧
  (∀ n g, registered s' n g ↔
          registered s n g ∨ ∃ sens, (g, sens) ∈ newsenses ∧ n ∈ sens) ∧
  posedge_clk_fns s' = posedge_clk_fns s ∧
  sim_nodes s' = sim_nodes s ∧
  rnode_callbacks s' = rnode_callbacks s ∧
  num_cycles s' = num_cycles s ∧
  trace s' = trace s.
Proof.
  revert s. induction newsenses as [|[f sens] l IH]; intros s.
  - cbn. split; [|split; [|done]].
    + intros g. split; [by left|]. intros [?|(? & []%elem_of_nil & _)]. done.
    + intros n g. split; [by left|]. intros [?|(? & []%elem_of_nil & _)]. done.
  - cbn [foldl fst snd].
    destruct (register_comb_spec f sens s) as (Hq1 & Hr1 & _ & E1).
    destruct (IH (register_comb f sens s)) as (Hq & Hr & E).
    split; [|split].
    + intros g. rewrite Hq, Hq1. setoid_rewrite elem_of_cons. split.
      * intros [[?|[-> ?]]|(sens' & ? & ?)]; eauto 6.
      * intros [?|(sens' & [[= -> ->]|?] & ?)]; eauto 6.
    + intros n g. rewrite Hr, Hr1. setoid_rewrite elem_of_cons. split.
      * intros [[?|[-> ?]]|(sens' & ? & ?)]; eauto 6.
      * intros [?|(sens' & [[= -> ->]|?] & ?)]; eauto 6.
    + destruct E as (-> & -> & -> & -> & ->).
      destruct E1 as (-> & -> & -> & -> & ->). done.
Qed.

End Construction.

(** X11.  In a constructed simulator, a function is primed (pending) exactly
    when the table gives it a non-empty sensitivity list, and then once; it
    is a callback of node [n] exactly when [n] is in one of its sensitivity
    lists.  A combinational function with an empty sensitivity list is
    neither primed nor ever triggered.  The edge functions are listed in the
    order given, every node has its simulator pointer, and the counter is
    0. *)
Theorem construct_sim_registers (nodes : gmap nat ValueNode)
  (newsenses : list (nat * list nat)) (posedge_funcs : list nat) :
  let s := construct_sim nodes newsenses posedge_funcs in
  (∀ f, f ∈ event_queue s ↔ ∃ sens, (f, sens) ∈ newsenses ∧ sens ≠ []) ∧
  NoDup (event_queue s) ∧
  (∀ n f, registered s n f ↔ ∃ sens, (f, sens) ∈ newsenses ∧ n ∈ sens) ∧
  posedge_clk_fns s = posedge_funcs ∧
  (∀ n nd, sim_nodes s !! n = Some nd → vn_sim nd = true) ∧
  num_cycles s = 0%Z ∧ rnode_callbacks s = [].
Proof.
  cbn zeta. split; [|split; [apply construct_sim_NoDup|]].
  all: unfold construct_sim.
  all: set (s0 := mkSim _ ∅ 0 ∅ [] [] [] []).
  all: destruct (register_all_spec newsenses s0) as (Hq & Hr & Hp & Hn & Hrn & Hc & _).
  all: set (s1 := foldl (λ s e, register_comb e.1 e.2 s) s0 newsenses) in *.
  all: assert (∀ l s, let s' := foldl (λ s f, set_posedge_clk_fns
                                         (posedge_clk_fns s ++ [f]) s) s l in
               event_queue s' = event_queue s ∧
               vnode_callbacks s' = vnode_callbacks s ∧
               posedge_clk_fns s' = posedge_clk_fns s ++ l ∧
               sim_nodes s' = sim_nodes s ∧ num_cycles s' = num_cycles s ∧
               rnode_callbacks s' = rnode_callbacks s) as Hpos
    by (induction l as [|f l IH]; intros s;
        [by cbn; rewrite app_nil_r|];
        cbn [foldl];
        destruct (IH (set_posedge_clk_fns (posedge_clk_fns s ++ [f]) s))
          as (-> & -> & -> & -> & -> & ->); cbn; by rewrite <- app_assoc).
  all: destruct (Hpos posedge_funcs s1) as (Eq & Ecb & Ep & En & Ec & Er).
  - intros f. rewrite Eq, Hq. cbn. split; [|eauto].
    intros [[]%elem_of_nil|?]. done.
  - split; [|split; [|split; [|split]]].
    + intros n f. unfold registered. rewrite Ecb. fold (registered s1 n f).
      rewrite Hr. split; [|eauto].
      intros [(fs & Hfs & _)|?]; [|done].
      unfold s0 in Hfs. cbn in Hfs. by rewrite lookup_empty in Hfs.
    + rewrite Ep, Hp. done.
    + intros n nd. rewrite En, Hn. cbn. rewrite lookup_fmap.
      destruct (nodes !! n); [|done]. by intros [= <-].
    + by rewrite Ec, Hc.
    + by rewrite Er, Hrn.
Qed.

Lemma set_value_keeps_node n value s k nd :
  sim_nodes s !! k = Some nd →
  ∃ nd', sim_nodes (set_value n value s) !! k = Some nd' ∧
         vn_sim nd' = vn_sim nd ∧ vn_width nd' = vn_width nd.
Proof.
  intros Hk. unfold set_value.
  destruct (sim_nodes s !! n) as [ndn|] eqn:Hn; [|eauto].
  assert (sim_nodes (if vn_sim ndn then add_event n s else s) = sim_nodes s)
    as Hs.
  { destruct (vn_sim ndn); [|done].
    by destruct (add_event_spec n s) as (new & -> & _). }
  cbn. rewrite Hs. destruct (decide (k = n)) as [->|Hne].
  - rewrite lookup_insert_eq. eexists. split; [done|].
    assert (nd = ndn) as -> by congruence. done.
  - rewrite lookup_insert_ne by done. eauto.
Qed.

(** X12.  The setter of a node stores the value in that node and in no
    other, keeps every node's simulator pointer and width, and schedules
    nothing when the node has no simulator pointer or no function is
    registered for it. *)
Theorem node_write_read (n : nat) (value : Z) (s : SimulationTool)
  (nd : ValueNode) :
  sim_nodes s !! n = Some nd →
  let s' := set_value n value s in
  node_value s' n = value ∧
  (∀ k, k ≠ n → node_value s' k = node_value s k) ∧
  (∀ k ndk, sim_nodes s !! k = Some ndk →
            ∃ ndk', sim_nodes s' !! k = Some ndk' ∧
                    vn_sim ndk' = vn_sim ndk ∧ vn_width ndk' = vn_width ndk) ∧
  (vn_sim nd = false ∨ vnode_callbacks s !! n = None →
   event_queue s' = event_queue s).
Proof.
  intros Hn. cbn zeta.
  destruct (set_value_spec n value s) as (new & m & E & _ & Hnew & Hm & Hmn).
  split; [|split; [|split]].
  - rewrite E. unfold node_value. cbn. apply Hmn. eauto.
  - intros k Hk. rewrite E. unfold node_value. cbn. by apply Hm.
  - intros k ndk Hk. by apply set_value_keeps_node.
  - intros Hcase. unfold set_value. rewrite Hn.
    destruct Hcase as [->|Hcb]; [done|].
    destruct (vn_sim nd); [|done]. unfold add_event. by rewrite Hcb.
Qed.

Lemma node_write_read_witness :
  let s' := set_value 3 9 ex_after_cycle in
  node_value s' 3 = 9%Z ∧
  (∀ k, k ≠ 3 → node_value s' k = node_value ex_after_cycle k) ∧
  (∀ k ndk, sim_nodes ex_after_cycle !! k = Some ndk →
            ∃ ndk', sim_nodes s' !! k = Some ndk' ∧
                    vn_sim ndk' = vn_sim ndk ∧ vn_width ndk' = vn_width ndk) ∧
  (vn_sim (mkValueNode true 1 1) = false
   ∨ vnode_callbacks ex_after_cycle !! 3 = None →
   event_queue s' = event_queue ex_after_cycle).
Proof.
  apply (node_write_read 3 9 ex_after_cycle (mkValueNode true 1 1)).
  vm_compute. reflexivity.
Defined.

Section Settling.

Variable body : nat → prog.

(** With bodies that write only nodes nothing is registered for, the loop of
    [eval_combinational] calls exactly the pending functions, from the right
    end of the queue to the left. *)
Lemma drain_quiet_calls fuel s :
  (∀ g, respects (λ n, vnode_callbacks s !! n = None) (λ _, True) (body g)) →
  length (event_queue s) ≤ fuel →
  ∃ s' T, drain body fuel s = Some s' ∧
          labels (trace s') = labels (trace s) ++ T ∧
          comb_calls T = reverse (event_queue s).
Proof.
  remember (vnode_callbacks s) as cb eqn:Hcb. symmetry in Hcb.
  intros Hbody. revert s Hcb. induction fuel as [|fuel IH]; intros s Hcb Hlen;
    destruct (pop (event_queue s)) as [[q g]|] eqn:Hpop.
  - apply pop_Some_inv in Hpop. rewrite Hpop, length_app in Hlen.
    cbn in Hlen. lia.
  - rewrite (drain_done _ _ _ Hpop). apply pop_None_inv in Hpop.
    exists s, []. by rewrite Hpop, app_nil_r.
  - rewrite (drain_step _ _ _ _ _ Hpop). apply pop_Some_inv in Hpop.
    destruct (run_quiet cb (body g) (log (LComb g) (set_event_queue q s))
                (Hbody g) Hcb) as [Hcb1 Hq1].
    fold (call body LComb g (set_event_queue q s)) in Hcb1, Hq1.
    destruct (advance_call body LComb g (set_event_queue q s) eq_refl)
      as (tr & (Htr & _) & Hst).
    destruct (IH (call body LComb g (set_event_queue q s)) Hcb1)
      as (s' & T & Hd & HT & Hcalls).
    { rewrite Hq1. cbn. rewrite Hpop, length_app in Hlen. cbn in Hlen. lia. }
    exists s', ((LComb g :: tr) ++ T). split; [done|]. split.
    + rewrite HT, Htr. cbn. by rewrite <- app_assoc.
    + unfold comb_calls in *. rewrite omap_app. cbn.
      destruct (only_stages tr Hst) as [E _]. unfold comb_calls in E.
      rewrite E, Hcalls, Hq1, Hpop. cbn. by rewrite reverse_snoc.
  - rewrite (drain_done _ _ _ Hpop). apply pop_None_inv in Hpop.
    exists s, []. by rewrite Hpop, app_nil_r.
Qed.

(** A function that is pending, and that writes first of all a node it is
    registered for, stays pending through every call of the loop. *)
Lemma feedback_invariant f n funcs p s :
  f ∈ event_queue s → vnode_callbacks s !! n = Some funcs →
  (∃ nd, sim_nodes s !! n = Some nd ∧ vn_sim nd = true) →
  f ∈ event_queue (run p s) ∧ vnode_callbacks (run p s) !! n = Some funcs ∧
  (∃ nd, sim_nodes (run p s) !! n = Some nd ∧ vn_sim nd = true).
Proof.
  intros Hf Hcb Hn.
  apply (run_inv (λ s', f ∈ event_queue s' ∧
                        vnode_callbacks s' !! n = Some funcs ∧
                        (∃ nd, sim_nodes s' !! n = Some nd ∧ vn_sim nd = true))
           (λ _, True) (λ _, True)); [| |apply respects_True|done].
  - intros m value s' _ (Hf' & Hcb' & nd & Hnd & Hsim).
    destruct (set_value_keeps_node m value s' n nd Hnd) as (nd' & ? & ? & _).
    destruct (set_value_spec m value s') as (new & mm & E & _).
    split; [|split].
    + rewrite E. cbn. apply elem_of_app. by right.
    + by rewrite E.
    + exists nd'. split; [done|congruence].
  - intros r value s' _ H. by cbn.
Qed.

End Settling.

(** X13.  When no function of the model writes a node that has callbacks,
    one settle with as much fuel as there are pending functions returns,
    having called exactly the pending functions, each once, from the oldest
    entry to the newest, and leaves the queue empty. *)
Theorem settle_quiet_exact (body : nat → prog) (s : SimulationTool) :
  (∀ g, respects (λ n, vnode_callbacks s !! n = None) (λ _, True) (body g)) →
  ∃ s' T,
    eval_combinational body (length (event_queue s)) s = Some s' ∧
    labels (trace s') = labels (trace s) ++ LSettle :: T ∧
    comb_calls T = reverse (event_queue s) ∧
    event_queue s' = [].
Proof.
  intros Hbody. unfold eval_combinational.
  destruct (drain_quiet_calls body (length (event_queue s)) (log LSettle s))
    as (s' & T & Hd & HT & Hcalls); [done|done|].
  exists s', T. split; [done|]. split; [|split; [done|]].
  - rewrite HT. unfold labels. cbn. by rewrite fmap_app, <- app_assoc.
  - by eapply drain_empties.
Qed.

Lemma settle_quiet_exact_witness :
  ∃ s' T,
    eval_combinational ex_body (length (event_queue ex_input_written))
      ex_input_written = Some s' ∧
    labels (trace s') = labels (trace ex_input_written) ++ LSettle :: T ∧
    comb_calls T = reverse (event_queue ex_input_written) ∧
    event_queue s' = [].
Proof.
  assert (vnode_callbacks ex_input_written !! 3 = None) as Hcb
    by (vm_compute; reflexivity).
  apply (settle_quiet_exact ex_body ex_input_written).
  intros [|[|[|g]]]; cbn [ex_body respects].
  - intros z. split; [exact Hcb|exact I].
  - exact I.
  - intros z. split; exact I.
  - exact I.
Defined.

(** X14.  A pending function whose body begins by writing a node that it is
    itself registered for (a node with its simulator pointer) is scheduled
    again by each of its calls: the settle never returns, whatever the
    fuel. *)
Theorem feedback_never_settles (body : nat → prog) (f n : nat) (value : Z)
  (k : prog) (funcs : list nat) (s : SimulationTool) :
  body f = WriteValue n value k →
  vnode_callbacks s !! n = Some funcs → f ∈ funcs →
  (∃ nd, sim_nodes s !! n = Some nd ∧ vn_sim nd = true) →
  f ∈ event_queue s →
  ∀ fuel, eval_combinational body fuel s = None.
Proof.
  intros Hbody Hcb Hfuncs Hn Hf fuel. unfold eval_combinational.
  assert (f ∈ event_queue (log LSettle s)) as Hf' by done.
  assert (vnode_callbacks (log LSettle s) !! n = Some funcs) as Hcb' by done.
  assert (∃ nd, sim_nodes (log LSettle s) !! n = Some nd ∧ vn_sim nd = true)
    as Hn' by done.
  generalize dependent (log LSettle s). clear s Hcb Hn Hf.
  induction fuel as [|fuel IH]; intros s Hf Hcb Hn;
    destruct (pop (event_queue s)) as [[q g]|] eqn:Hpop.
  - by rewrite (drain_out_of_fuel _ _ _ _ Hpop).
  - apply pop_None_inv in Hpop. rewrite Hpop in Hf. by apply elem_of_nil in Hf.
  - rewrite (drain_step _ _ _ _ _ Hpop). apply pop_Some_inv in Hpop.
    unfold call. destruct (decide (g = f)) as [->|Hne].
    + rewrite Hbody. cbn [run].
      destruct Hn as (nd & Hnd & Hsim).
      destruct (set_value_keeps_node n value
                  (log (LComb f) (set_event_queue q s)) n nd Hnd)
        as (nd' & Hnd' & Hsim' & _).
      destruct (feedback_invariant f n funcs k
                  (set_value n value (log (LComb f) (set_event_queue q s))))
        as (? & ? & ?).
      * unfold set_value. cbn [sim_nodes log set_event_queue].
        rewrite Hnd, Hsim. cbn. unfold add_event.
        cbn [vnode_callbacks log set_event_queue]. rewrite Hcb. cbn.
        by apply add_funcs_pending.
      * by destruct (set_value_spec n value
                       (log (LComb f) (set_event_queue q s)))
          as (new & mm & -> & _).
      * exists nd'. split; [done|congruence].
      * by apply IH.
    + destruct (feedback_invariant f n funcs (body g)
                  (log (LComb g) (set_event_queue q s))) as (? & ? & ?);
        [|done|done|by apply IH].
      cbn. rewrite Hpop in Hf.
      apply elem_of_app in Hf as [?| ->%list_elem_of_singleton]; done.
  - apply pop_None_inv in Hpop. rewrite Hpop in Hf. by apply elem_of_nil in Hf.
Qed.

Lemma feedback_never_settles_witness :
  (ex_feedback_body 1 = WriteValue 0 1 Return ∧
   vnode_callbacks ex_feedback !! 0 = Some [1] ∧
   1 ∈ event_queue ex_feedback) ∧
  eval_combinational ex_feedback_body 1000 ex_feedback = None.
Proof.
  assert (Hb : ex_feedback_body 1 = WriteValue 0 1 Return) by reflexivity.
  assert (Hc : vnode_callbacks ex_feedback !! 0 = Some [1])
    by (vm_compute; reflexivity).
  assert (Hq : 1 ∈ event_queue ex_feedback)
    by (apply elem_of_cons; left; reflexivity).
  split; [by repeat split|].
  apply (feedback_never_settles ex_feedback_body 1 0 1 Return [1] ex_feedback
           Hb Hc).
  - apply elem_of_cons. left. reflexivity.
  - eexists. split; [vm_compute; reflexivity|reflexivity].
  - exact Hq.
Defined.

(** X15.  When [cycle] returns, no function is pending, and the callbacks
    and the edge functions are those registered at construction. *)
Theorem cycle_quiescent (body : nat → prog) (clk fuel : nat)
  (s s' : SimulationTool) :
  cycle body clk fuel s = Some s' →
  event_queue s' = [] ∧
  vnode_callbacks s' = vnode_callbacks s ∧
  posedge_clk_fns s' = posedge_clk_fns s.
Proof.
  intros Hc. split; [by eapply cycle_empties|].
  by apply cycle_shape in Hc as (_ & _ & _ & _ & ? & ?).
Qed.

Lemma cycle_quiescent_witness :
  cycle ex_body 0 10 ex_sim = Some ex_after_cycle ∧
  event_queue ex_after_cycle = [] ∧
  vnode_callbacks ex_after_cycle = vnode_callbacks ex_sim ∧
  posedge_clk_fns ex_after_cycle = posedge_clk_fns ex_sim.
Proof.
  assert (cycle ex_body 0 10 ex_sim = Some ex_after_cycle) as H
    by (vm_compute; reflexivity).
  split; [exact H|]. exact (cycle_quiescent ex_body 0 10 ex_sim ex_after_cycle H).
Defined.

(** X16.  The event queue of a simulator never holds a function twice:
    not after construction, and not after any sequence of writes to
    nodes. *)
Theorem event_queue_no_duplicates (nodes : gmap nat ValueNode)
  (newsenses : list (nat * list nat)) (posedge_funcs : list nat)
  (ws : list (nat * Z)) :
  NoDup (event_queue
           (write_inputs ws (construct_sim nodes newsenses posedge_funcs))).
Proof.
  unfold write_inputs.
  apply (foldl_preserves (λ s, NoDup (event_queue s))).
  - intros s w Hs. by apply set_value_NoDup.
  - apply construct_sim_NoDup.
Qed.

Section NodeGroups.

Implicit Types (x g : gset nat) (l kept : list (gset nat)).



End NodeGroups.



(** ** Part X: properties of the memory image *)

Section ImageFacts.

Context {A : Type}.
Implicit Types (l : list A) (i : Z).

Lemma py_getitem_nonneg l i x :
  (0 ≤ i)%Z → l !! Z.to_nat i = Some x → py_getitem l i = inr x.
Proof.
  intros Hi Hx. pose proof (lookup_lt_Some _ _ _ Hx) as Hlt.
  unfold py_getitem. cbn zeta.
  assert ((i <? 0)%Z = false) as -> by (apply Z.ltb_ge; lia).
  assert ((i <? 0)%Z = false) as -> by (apply Z.ltb_ge; lia).
  assert ((Z.of_nat (length l) <=? i)%Z = false) as ->
    by (apply Z.leb_gt; lia).
  cbn. by rewrite Hx.
Qed.

Lemma py_getitem_negative l i :
  (- Z.of_nat (length l) ≤ i < 0)%Z →
  py_getitem l i = py_getitem l (i + Z.of_nat (length l)).
Proof.
  intros Hi. unfold py_getitem. cbn zeta.
  assert ((i <? 0)%Z = true) as -> by (apply Z.ltb_lt; lia).
  assert ((i + Z.of_nat (length l) <? 0)%Z = false) as ->
    by (apply Z.ltb_ge; lia).
  assert ((i + Z.of_nat (length l) <? 0)%Z = false) as ->
    by (apply Z.ltb_ge; lia).
  done.
Qed.

Lemma py_getitem_error l i :
  py_getitem l i = inl ImgIndexError ↔
  (i < - Z.of_nat (length l) ∨ Z.of_nat (length l) ≤ i)%Z.
Proof.
  unfold py_getitem. cbn zeta.
  set (j := if (i <? 0)%Z then (i + Z.of_nat (length l))%Z else i).
  assert ((j < 0 ∨ Z.of_nat (length l) ≤ j)%Z ↔
          (i < - Z.of_nat (length l) ∨ Z.of_nat (length l) ≤ i)%Z) as <-.
  { unfold j. destruct (Z.ltb_spec i 0); lia. }
  clearbody j.
  destruct (Z.ltb_spec j 0); cbn; [split; [lia|done]|].
  destruct (Z.leb_spec (Z.of_nat (length l)) j); [split; [lia|done]|].
  destruct (l !! Z.to_nat j) eqn:E.
  - split; [done|lia].
  - apply lookup_ge_None in E. lia.
Qed.

Lemma py_getitem_elem l i x : py_getitem l i = inr x → x ∈ l.
Proof.
  unfold py_getitem. cbn zeta.
  set (j := if (i <? 0)%Z then (i + Z.of_nat (length l))%Z else i).
  clearbody j. destruct ((j <? 0)%Z || (Z.of_nat (length l) <=? j)%Z); [done|].
  destruct (l !! Z.to_nat j) eqn:E; [|done].
  intros [= <-]. by eapply list_elem_of_lookup_2.
Qed.

End ImageFacts.

(** X18.  A label given to [load_label] is the one [read_label] returns at
    the index [num_labels() - 1] of the new image, and at index -1; the
    number of labels grows by one; the labels at the earlier indices are
    unchanged. *)
Theorem load_then_read (label_list : Z * list Z) (s : list (Z * list Z)) :
  let s' := load_label label_list s in
  read_label (num_labels s' - 1) s' = inr label_list ∧
  read_label (-1) s' = inr label_list ∧
  num_labels s' = (num_labels s + 1)%Z ∧
  ∀ i, (0 ≤ i < num_labels s)%Z → read_label i s' = read_label i s.
Proof.
  cbn zeta. unfold read_label, num_labels, load_label.
  rewrite length_app. cbn [length].
  assert (py_getitem (s ++ [label_list]) (Z.of_nat (length s)) = inr label_list)
    as Hlast.
  { apply py_getitem_nonneg; [lia|].
    rewrite Nat2Z.id, lookup_app_r by lia. by rewrite Nat.sub_diag. }
  split; [|split; [|split]].
  - by replace (Z.of_nat (length s + 1) - 1)%Z with (Z.of_nat (length s)) by lia.
  - rewrite py_getitem_negative by (rewrite length_app; cbn; lia).
    rewrite length_app. cbn [length].
    by replace (-1 + Z.of_nat (length s + 1))%Z with (Z.of_nat (length s))
      by lia.
  - lia.
  - intros i Hi.
    destruct (s !! Z.to_nat i) as [x|] eqn:E.
    + rewrite (py_getitem_nonneg s i x) by (done || lia).
      apply py_getitem_nonneg; [lia|]. by apply lookup_app_l_Some.
    + apply lookup_ge_None in E. lia.
Qed.

(** X19.  [read_label] takes a position, not an address: it raises
    [IndexError] exactly for an index [i] with [i >= num_labels()] or
    [i < -num_labels()], and a negative index in range reads the label at
    [i + num_labels()]. *)
Theorem read_label_bounds (i : Z) (s : list (Z * list Z)) :
  (read_label i s = inl ImgIndexError ↔
   (i < - num_labels s ∨ num_labels s ≤ i)%Z) ∧
  ((- num_labels s ≤ i < 0)%Z →
   read_label i s = read_label (i + num_labels s) s) ∧
  (∀ e, read_label i s = inr e → e ∈ s).
Proof.
  unfold read_label, num_labels. split; [apply py_getitem_error|].
  split; [apply py_getitem_negative|].
  intros e. apply py_getitem_elem.
Qed.

Section VmhFacts.

Variable int16 : string → option Z.

Lemma append_to_current_snoc (value a : Z) (d : list Z)
  (init : list (Z * list Z)) :
  append_to_current value (init ++ [(a, d)]) = init ++ [(a, d ++ [value])].
Proof.
  unfold append_to_current. rewrite length_app. cbn [length].
  replace (pred (length init + 1)) with (length init) by lia.
  induction init as [|x init IH]; [done|]. cbn. f_equal. exact IH.
Qed.

Lemma blank_split (s cur : string) :
  nonblank s = false →
  split_from s cur = if decide (cur = EmptyString) then [] else [cur].
Proof.
  revert cur. induction s as [|c s IH]; intros cur; [done|]. cbn.
  intros [Hc Hs]%orb_false_iff. apply negb_false_iff in Hc. rewrite Hc.
  rewrite (IH EmptyString Hs). by case_decide.
Qed.

Lemma split_nonblank (s tok : string) (toks : list string) :
  split s = tok :: toks → nonblank s = true.
Proof.
  intros Hs. destruct (nonblank s) eqn:E; [done|].
  unfold split in Hs. by rewrite (blank_split s EmptyString E) in Hs.
Qed.

(** The invariant of the loop: an entry with address 0 has no data, and
    [addr] is the address of the entry appended last. *)
Lemma vmh_line_invariant (st st' : list (Z * list Z) * option Z)
  (line : string) :
  vmh_line int16 st line = inr st' →
  (∀ a d, (a, d) ∈ st.1 → a = 0%Z → d = []) →
  (∀ a, st.2 = Some a → ∃ init d, st.1 = init ++ [(a, d)]) →
  (∀ a d, (a, d) ∈ st'.1 → a = 0%Z → d = []) ∧
  (∀ a, st'.2 = Some a → ∃ init d, st'.1 = init ++ [(a, d)]).
Proof.
  destruct st as [img addr]. cbn [fst snd].
  destruct line as [|c rest]; [done|]. cbn [vmh_line fst snd].
  destruct (Ascii.eqb c "@").
  - destruct (split rest) as [|h [|sl [|lb [|]]]]; try done.
    destruct (int16 h) as [a|]; [|done]. intros [= <-] Hz Hlast.
    cbn [fst snd]. split.
    + intros a' d [?|[= -> ->]%list_elem_of_singleton]%elem_of_app; eauto.
    + intros a' [= <-]. eauto.
  - destruct addr as [a|]; [|by intros [= <-]].
    destruct (Z.eqb_spec a 0) as [->|Hne]; cbn [negb andb].
    { by intros [= <-]. }
    destruct (nonblank (String c rest)); [|by intros [= <-]].
    destruct (split (String c rest)) as [|h toks]; [done|].
    destruct (int16 h) as [v|]; [|done]. intros [= <-] Hz Hlast.
    cbn [fst snd]. destruct (Hlast a eq_refl) as (init & d & ->).
    rewrite append_to_current_snoc. split.
    + intros a' d' [?|[= -> ->]%list_elem_of_singleton]%elem_of_app;
        [|done]. intros ->. apply (Hz 0%Z d'); [|done].
      apply elem_of_app. by left.
    + intros a' [= <-]. eauto.
Qed.

Lemma vmh_lines_invariant (lines : list string)
  (st st' : list (Z * list Z) * option Z) :
  vmh_lines int16 lines st = inr st' →
  (∀ a d, (a, d) ∈ st.1 → a = 0%Z → d = []) →
  (∀ a, st.2 = Some a → ∃ init d, st.1 = init ++ [(a, d)]) →
  ∀ a d, (a, d) ∈ st'.1 → a = 0%Z → d = [].
Proof.
  revert st. induction lines as [|line lines IH]; intros st; cbn.
  - by intros [= <-].
  - destruct (vmh_line int16 st line) as [e|st1] eqn:E; [done|].
    intros Hl Hz Hlast.
    destruct (vmh_line_invariant st st1 line E Hz Hlast) as [Hz1 Hlast1].
    by apply (IH st1).
Qed.

End VmhFacts.

(** X20.  In an image read from a VMH file, the entry of a label at address
    0 has no data: the loop tests [addr] for truth, so the data lines that
    follow an [@0] label are dropped. *)
Theorem vmh_zero_label_empty (int16 : string → option Z)
  (lines : list string) (img : list (Z * list Z)) :
  image_of_vmh int16 lines = inr img →
  ∀ d, (0%Z, d) ∈ img → d = [].
Proof.
  unfold image_of_vmh.
  destruct (vmh_lines int16 lines ([], None)) as [e|st] eqn:E; [done|].
  intros [= <-] d Hd.
  eapply (vmh_lines_invariant int16 lines ([], None) st E); [| |done|done].
  - by intros a d' ?%elem_of_nil.
  - done.
Qed.

Lemma vmh_zero_label_empty_witness :
  image_of_vmh ex_int16 ex_vmh = inr [(0, []); (1024, [31; 32])]%Z ∧
  ∀ d, (0%Z, d) ∈ [(0, []); (1024, [31; 32])]%Z → d = [].
Proof.
  assert (image_of_vmh ex_int16 ex_vmh = inr [(0, []); (1024, [31; 32])]%Z)
    as H by (vm_compute; reflexivity).
  split; [exact H|]. exact (vmh_zero_label_empty ex_int16 ex_vmh _ H).
Defined.

(** X21.  The lines of a VMH file before its first label line (non-empty
    lines that do not begin with [@]) are ignored, whatever they hold. *)
Theorem vmh_preamble_ignored (int16 : string → option Z)
  (pre rest : list string) :
  Forall (λ l, ∃ c r, l = String c r ∧ c ≠ "@"%char) pre →
  image_of_vmh int16 (pre ++ rest) = image_of_vmh int16 rest.
Proof.
  intros Hpre. unfold image_of_vmh.
  assert (vmh_lines int16 (pre ++ rest) ([], None)
          = vmh_lines int16 rest ([], None)) as ->; [|done].
  induction Hpre as [|l pre (c & r & -> & Hc) _ IH]; [done|].
  cbn. apply Ascii.eqb_neq in Hc. by rewrite Hc.
Qed.

Lemma vmh_preamble_ignored_witness :
  image_of_vmh ex_int16 (take 1 ex_vmh ++ drop 1 ex_vmh)
  = image_of_vmh ex_int16 (drop 1 ex_vmh).
Proof.
  apply (vmh_preamble_ignored ex_int16 (take 1 ex_vmh) (drop 1 ex_vmh)).
  constructor; [|constructor].
  eexists _, _. split; [reflexivity|]. discriminate.
Defined.

(** X22.  A label line [@hex / name] with a non-zero address, followed by
    data lines, appends one entry to the image: the address and, in order,
    the value of the first token of each data line. *)
Theorem vmh_label_collects (int16 : string → option Z)
  (rest h sl lb : string) (a : Z) (dlines : list string) (vs : list Z)
  (img : list (Z * list Z)) (addr0 : option Z) :
  split rest = [h; sl; lb] → int16 h = Some a → a ≠ 0%Z →
  Forall2 (λ l v, ∃ c r tok toks,
             l = String c r ∧ c ≠ "@"%char ∧
             split l = tok :: toks ∧ int16 tok = Some v) dlines vs →
  vmh_lines int16 (String "@"%char rest :: dlines) (img, addr0)
  = inr (img ++ [(a, vs)], Some a).
Proof.
  intros Hsplit Hh Ha Hdata. cbn [vmh_lines vmh_line fst snd].
  rewrite Ascii.eqb_refl, Hsplit, Hh.
  assert (∀ d, vmh_lines int16 dlines (img ++ [(a, d)], Some a)
               = inr (img ++ [(a, d ++ vs)], Some a)) as H; [|apply (H [])].
  induction Hdata as [|l v dlines vs (c & r & tok & toks & -> & Hc & Hs & Hv) _ IH];
    intros d.
  - cbn. by rewrite app_nil_r.
  - cbn [vmh_lines vmh_line fst snd]. apply Ascii.eqb_neq in Hc. rewrite Hc.
    destruct (Z.eqb_spec a 0) as [|_]; [done|]. cbn [negb andb].
    rewrite (split_nonblank _ _ _ Hs), Hs, Hv, append_to_current_snoc, IH.
    by rewrite <- app_assoc.
Qed.

Lemma vmh_label_collects_witness :
  vmh_lines ex_int16 ex_vmh_label ([], None) = inr ([(1024, [31; 32])]%Z, Some 1024%Z).
Proof.
  apply (vmh_label_collects ex_int16
           ("400 // text" +:+ String "010"%char EmptyString)
           "400" "//" "text" 1024
           ["1f 00" +:+ String "010"%char EmptyString;
            "20" +:+ String "010"%char EmptyString]%string
           [31; 32]%Z [] None).
  - reflexivity.
  - reflexivity.
  - lia.
  - constructor; [|constructor; [|constructor]].
    + eexists _, _, _, _. split; [reflexivity|]. split; [discriminate|].
      split; reflexivity.
    + eexists _, _, _, _. split; [reflexivity|]. split; [discriminate|].
      split; reflexivity.
Defined.

(** ** Part XI: invariants of [cycle] and [reset], and [_auto_init] *)

Section KernelInvariant.

Variable body : nat → prog.
Variable clk reset_node : nat.
Variable I : SimulationTool → Prop.

Hypothesis I_log : ∀ l s, I s → I (log l s).
Hypothesis I_set_value : ∀ n value s, I s → I (set_value n value s).
Hypothesis I_stage : ∀ r value s, I s → I (stage r value s).
Hypothesis I_event_queue : ∀ q s, I s → I (set_event_queue q s).
Hypothesis I_rnode_callbacks : ∀ l s, I s → I (set_rnode_callbacks l s).
Hypothesis I_num_cycles : ∀ c s, I s → I (set_num_cycles c s).

Lemma inv_call kind f s : I s → I (call body kind f s).
Proof.
  intros Hs. unfold call.
  apply (run_inv I (λ _, True) (λ _, True)); auto using respects_True.
Qed.

Lemma inv_drain fuel s s' : drain body fuel s = Some s' → I s → I s'.
Proof.
  revert s. induction fuel as [|fuel IH]; intros s;
    destruct (pop (event_queue s)) as [[q g]|] eqn:Hpop.
  - by rewrite (drain_out_of_fuel _ _ _ _ Hpop).
  - rewrite (drain_done _ _ _ Hpop). by intros [= <-].
  - rewrite (drain_step _ _ _ _ _ Hpop). intros Hd Hs.
    apply (IH _ Hd). apply inv_call. by apply I_event_queue.
  - rewrite (drain_done _ _ _ Hpop). by intros [= <-].
Qed.

Lemma inv_commit_loop n s : I s → I (commit_loop n s).
Proof.
  revert s. induction n as [|n IH]; intros s Hs; [done|]. cbn.
  destruct (pop (rnode_callbacks s)) as [[rest reg]|]; [|done].
  apply IH. unfold clock. apply I_set_value, I_log.
  by apply I_rnode_callbacks.
Qed.

Lemma inv_cycle fuel s s' : cycle body clk fuel s = Some s' → I s → I s'.
Proof.
  unfold cycle, eval_combinational. intros Hc Hs.
  apply bind_Some in Hc as (s1 & H1 & Hc).
  apply bind_Some in Hc as (s6 & H6 & [= <-]).
  apply I_num_cycles. eapply inv_drain; [done|]. apply I_log.
  apply inv_commit_loop.
  apply (foldl_preserves I); [intros; by apply inv_call|].
  unfold kernel_write. apply I_set_value, I_log, I_set_value, I_log.
  eapply inv_drain; [done|]. by apply I_log.
Qed.

Lemma inv_reset fuel s s' :
  reset body clk reset_node fuel s = Some s' → I s → I s'.
Proof.
  unfold reset. intros Hr Hs.
  apply bind_Some in Hr as (s2 & H2 & Hr).
  apply bind_Some in Hr as (s3 & H3 & [= <-]).
  unfold kernel_write. apply I_set_value, I_log.
  eapply inv_cycle; [done|]. eapply inv_cycle; [done|].
  by apply I_set_value, I_log.
Qed.

End KernelInvariant.

Lemma keeps_node_invariant (k : nat) (nd : ValueNode) :
  let I := λ s, ∃ nd', sim_nodes s !! k = Some nd' ∧
                       vn_sim nd' = vn_sim nd ∧ vn_width nd' = vn_width nd in
  (∀ l s, I s → I (log l s)) ∧
  (∀ n value s, I s → I (set_value n value s)) ∧
  (∀ r value s, I s → I (stage r value s)) ∧
  (∀ q s, I s → I (set_event_queue q s)) ∧
  (∀ l s, I s → I (set_rnode_callbacks l s)) ∧
  (∀ c s, I s → I (set_num_cycles c s)).
Proof.
  cbn zeta. repeat split; try done.
  intros n value s (nd' & Hk & <- & <-). by apply set_value_keeps_node.
Qed.

(** X23.  [cycle] and [reset] remove no node and change no node's simulator
    pointer or width: only values change. *)
Theorem kernel_keeps_nodes (body : nat → prog) (clk reset_node fuel : nat)
  (s s' : SimulationTool) :
  cycle body clk fuel s = Some s' ∨
  reset body clk reset_node fuel s = Some s' →
  ∀ k nd, sim_nodes s !! k = Some nd →
          ∃ nd', sim_nodes s' !! k = Some nd' ∧
                 vn_sim nd' = vn_sim nd ∧ vn_width nd' = vn_width nd.
Proof.
  intros Hrun k nd Hk.
  destruct (keeps_node_invariant k nd) as (H1 & H2 & H3 & H4 & H5 & H6).
  destruct Hrun as [Hc|Hr].
  - eapply (inv_cycle body clk _ H1 H2 H3 H4 H5 H6); [done|]. eauto.
  - eapply (inv_reset body clk reset_node _ H1 H2 H3 H4 H5 H6); [done|]. eauto.
Qed.

Lemma kernel_keeps_nodes_witness :
  reset ex_body 0 1 10 ex_sim = Some ex_after_reset ∧
  ∀ k nd, sim_nodes ex_sim !! k = Some nd →
          ∃ nd', sim_nodes ex_after_reset !! k = Some nd' ∧
                 vn_sim nd' = vn_sim nd ∧ vn_width nd' = vn_width nd.
Proof.
  assert (H : reset ex_body 0 1 10 ex_sim = Some ex_after_reset)
    by (vm_compute; reflexivity).
  split; [exact H|].
  exact (kernel_keeps_nodes ex_body 0 1 10 ex_sim ex_after_reset
           (or_intror H)).
Defined.

(** X24.  When [reset] returns, the functions registered for the reset
    node are pending, each once, and no other function is: the write of 0
    that ends [reset] is not followed by a settle, so the de-assertion takes
    effect in the next cycle. *)
Theorem reset_leaves_listeners_pending (body : nat → prog)
  (clk reset_node fuel : nat) (s s' : SimulationTool) (nd : ValueNode) :
  sim_nodes s !! reset_node = Some nd → vn_sim nd = true →
  reset body clk reset_node fuel s = Some s' →
  (∀ f, f ∈ event_queue s' ↔ registered s reset_node f) ∧
  NoDup (event_queue s').
Proof.
  intros Hnd Hsim Hr. unfold reset in Hr.
  apply bind_Some in Hr as (s2 & H2 & Hr).
  apply bind_Some in Hr as (s3 & H3 & [= <-]).
  destruct (keeps_node_invariant reset_node nd) as (I1 & I2 & I3 & I4 & I5 & I6).
  assert (∃ nd', sim_nodes s3 !! reset_node = Some nd' ∧
                 vn_sim nd' = vn_sim nd ∧ vn_width nd' = vn_width nd)
    as (nd3 & Hnd3 & Hsim3 & _).
  { eapply (inv_cycle body clk _ I1 I2 I3 I4 I5 I6); [exact H3|].
    eapply (inv_cycle body clk _ I1 I2 I3 I4 I5 I6); [exact H2|].
    unfold kernel_write. apply I2, I1. eauto. }
  assert (vnode_callbacks s3 = vnode_callbacks s) as Hcb.
  { apply cycle_shape in H3 as (_ & _ & _ & _ & _ & ->).
    apply cycle_shape in H2 as (_ & _ & _ & _ & _ & ->).
    apply advance_kernel_write. }
  pose proof (cycle_empties _ _ _ _ _ H3) as Hq3.
  unfold kernel_write, set_value. cbn [sim_nodes log].
  rewrite Hnd3, Hsim3, Hsim. unfold add_event.
  cbn [vnode_callbacks log event_queue set_nodes set_event_queue].
  rewrite Hcb. unfold registered.
  destruct (vnode_callbacks s !! reset_node) as [funcs|];
    cbn [event_queue set_nodes set_event_queue log].
  - rewrite Hq3.
    destruct (add_funcs_spec funcs []) as (new & E & Hnew & Hnodup).
    split; [|by apply add_funcs_NoDup, NoDup_nil_2].
    intros f. split.
    + rewrite E, app_nil_r. intros Hf. exists funcs. split; [done|].
      by apply Hnew.
    + intros (fs & [= <-] & Hf). by apply add_funcs_pending.
  - rewrite Hq3. split; [|constructor].
    intros f. split; [by intros ?%elem_of_nil|]. by intros (fs & [=] & _).
Qed.

Lemma reset_leaves_listeners_pending_witness :
  reset ex_body 0 1 10 ex_listening = Some ex_listening_after_reset ∧
  registered ex_listening 1 3 ∧
  3 ∈ event_queue ex_listening_after_reset ∧
  (∀ f, f ∈ event_queue ex_listening_after_reset
        ↔ registered ex_listening 1 f) ∧
  NoDup (event_queue ex_listening_after_reset).
Proof.
  assert (Hn : sim_nodes ex_listening !! 1 = Some (mkValueNode true 1 0))
    by (vm_compute; reflexivity).
  assert (Hr : reset ex_body 0 1 10 ex_listening
               = Some ex_listening_after_reset)
    by (vm_compute; reflexivity).
  assert (Hc : vnode_callbacks ex_listening !! 1 = Some [3])
    by (vm_compute; reflexivity).
  assert (Hreg : registered ex_listening 1 3).
  { exists [3]. split; [exact Hc|]. apply elem_of_cons. left. reflexivity. }
  pose proof (reset_leaves_listeners_pending ex_body 0 1 10 ex_listening
                ex_listening_after_reset (mkValueNode true 1 0)
                Hn eq_refl Hr) as Hthm.
  split; [exact Hr|]. split; [exact Hreg|].
  split; [exact (proj2 (proj1 Hthm 3) Hreg)|]. exact Hthm.
Defined.

Lemma prefix_append (p s : string) : String.prefix p (p +:+ s) = true.
Proof.
  induction p as [|a p IH]; [by destruct s|].
  change (String.prefix (String a p) (String a (p +:+ s)) = true).
  cbn [String.prefix]. destruct (Ascii.ascii_dec a a); [exact IH|done].
Qed.

(** X25.  After [_auto_init], [modulename] starts with [scprefix] when a
    prefix is set, and a second [_auto_init] leaves it as it is: the prefix
    is added once only. *)
Theorem auto_init_modulename_stable (class_name : string)
  (scprefix modulename : option string) :
  let m := auto_init_modulename class_name scprefix modulename in
  auto_init_modulename class_name scprefix (Some m) = m ∧
  (truth scprefix = true →
   String.prefix (default ""%string scprefix) m = true).
Proof.
  cbn zeta.
  set (m := auto_init_modulename class_name scprefix modulename).
  assert (truth scprefix = true →
          String.prefix (default ""%string scprefix) m = true) as Hprefix.
  { intros Hp. unfold m, auto_init_modulename. rewrite Hp. cbn [andb].
    set (m0 := if truth modulename then default ""%string modulename
               else class_name).
    destruct (String.prefix (default ""%string scprefix) m0) eqn:Hpre;
      cbn [negb]; [done|].
    apply prefix_append. }
  split; [|done].
  assert ((if truth (Some m) then default ""%string (Some m) else class_name)
          = m) as Hm.
  { cbn [truth default from_option id].
    destruct (String.eqb_spec m "") as [E|_]; cbn [negb]; [|done].
    rewrite E. unfold m, auto_init_modulename in E.
    destruct (truth scprefix && _) eqn:Hb.
    - destruct scprefix as [[|a q]|]; try done.
    - destruct (truth modulename) eqn:Hmod; [|done].
      destruct modulename as [x|]; [|done]. cbn in E, Hmod. by subst x. }
  unfold auto_init_modulename at 1. rewrite Hm.
  destruct (truth scprefix) eqn:Hp; cbn [andb]; [|done].
  by rewrite Hprefix.
Qed.

(** X26.  An image built from a list of labels is the image that loading
    the labels one after the other into an empty image gives, and
    [read_label] finds each label at its position in the list. *)
Theorem image_of_labels_loads (labels_list : list (Z * list Z)) :
  foldl (λ s l, load_label l s) (image_of_labels []) labels_list
  = image_of_labels labels_list ∧
  ∀ (i : nat) l, labels_list !! i = Some l →
                 read_label (Z.of_nat i) (image_of_labels labels_list) = inr l.
Proof.
  split.
  - unfold image_of_labels. cbn [app].
    assert (∀ acc, foldl (λ s l, load_label l s) acc labels_list
                   = acc ++ labels_list) as H; [|apply (H [])].
    induction labels_list as [|l ls IH]; intros acc; cbn [foldl].
    + by rewrite app_nil_r.
    + rewrite IH. unfold load_label. by rewrite <- app_assoc.
  - intros i l Hl. unfold read_label, image_of_labels. cbn [app].
    apply py_getitem_nonneg; [lia|]. by rewrite Nat2Z.id.
Qed.
